(** * hash_table.hh: an open-addressing hash table without tombstones

    A shallow embedding of [struct hash_table<Key, Value, Hash, Equal>]
    (hash_table.hh) and the proofs of its contract.

    Conventions of the embedding.
    - [std::size_t] is a 64-bit unsigned integer: a [Z] with the wrap-around
      [wrap] written at every arithmetic operation of the source.
    - [std::vector<Slot>] is a [list Slot]; a pointer to a slot or to its
      value is the index of the slot.
    - A member function returns a [result]: it returns normally ([Ok]), lets
      an allocation failure propagate ([Throw t], leaving the table as [t]),
      stops on a failed [assert], an out-of-range access or [std::terminate]
      ([Abort]), or loops for ever ([Diverge]).
    - The only allocation is [std::vector::resize]. Every call that may
      allocate takes [avail], the largest number of slots the allocator can
      provide at that moment. *)

From Stdlib Require Import ZArith Lia Bool.
From stdpp Require Import base list strings.

Local Open Scope Z_scope.

(** ** std::size_t *)

Definition size_t_bits : Z := 64.

Definition wrap (x : Z) : Z := x mod 2 ^ size_t_bits.

(** ** The template parameters *)

(** What the template takes besides the two types: [Hash{}(key)] and
    [Equal{}(a, b)], the two function objects, and [Key{}] and [Value{}],
    the value-initialised key and value. *)
Class TableOps (Key Value : Type) : Type := {
  Hash : Key → Z;
  Equal : Key → Key → bool;
  default_key : Key;
  default_value : Value
}.

Section HashTable.

Context {Key Value : Type} {Ops : TableOps Key Value}.

(** ** Data model *)

Record KeyValue : Type := mkKeyValue { key : Key; value : Value }.

Record Slot : Type := mkSlot { kv : KeyValue; used : bool }.

(** [Slot()] *)
Definition Slot_empty : Slot :=
  mkSlot (mkKeyValue default_key default_value) false.

(** [Slot(Key key, Value value)] *)
Definition Slot_of (k : Key) (v : Value) : Slot :=
  mkSlot (mkKeyValue k v) true.

Record hash_table : Type := mkTable {
  slots : list Slot;
  count : Z;
  max_hash_offset : Z
}.

(** ** Outcomes of a member function *)

Inductive result (A : Type) : Type :=
| Ok (a : A)
| Throw (t : hash_table)
| Abort
| Diverge.

Arguments Ok {A} a.
Arguments Throw {A} t.
Arguments Abort {A}.
Arguments Diverge {A}.

Definition bind {A B : Type} (m : result A) (f : A → result B) : result B :=
  match m with
  | Ok a => f a
  | Throw t => Throw t
  | Abort => Abort
  | Diverge => Diverge
  end.

Notation "x <- m ;; k" := (bind m (fun x => k))
  (at level 100, m at next level, right associativity).
Notation "m ;;; k" := (bind m (fun _ => k))
  (at level 100, right associativity).

(** [assert(b)] *)
Definition assert_ (b : bool) : result unit :=
  if b then Ok tt else Abort.

(** ** std::vector<Slot> *)

(** [v.size()] *)
Definition vsize (v : list Slot) : Z := Z.of_nat (length v).

(** [v[i]]: undefined out of range. *)
Definition vget (v : list Slot) (i : Z) : result Slot :=
  if (0 <=? i) && (i <? vsize v) then
    match v !! Z.to_nat i with
    | Some s => Ok s
    | None => Abort
    end
  else Abort.

(** [v[i] = s].  Out of range the list is left as it is; every write of
    the source comes with a read of the same slot, and that read stops on
    an index out of range. *)
Definition vset (v : list Slot) (i : Z) (s : Slot) : list Slot :=
  <[Z.to_nat i := s]> v.

(** A bound on the size of every vector of slots: its storage is one
    array, no array takes more than [PTRDIFF_MAX] bytes, and a [Slot] takes
    at least three bytes, for the key, the value and the flag. *)
Definition vector_max_size : Z := (2 ^ 63 - 1) / 3.

(** [v.resize(n)]: truncates, or appends value-initialised slots; [None]
    when the new storage cannot be allocated. *)
Definition resize (avail : Z) (v : list Slot) (n : Z) : option (list Slot) :=
  if n <=? vsize v then Some (take (Z.to_nat n) v)
  else if (n <=? avail) && (n <=? vector_max_size)
       then Some (v ++ replicate (Z.to_nat n - length v)%nat Slot_empty)
       else None.

(** ** Private member functions *)

(** [slot.equals(key)] *)
Definition equals (s : Slot) (k : Key) : result bool :=
  assert_ (used s);;;
  Ok (Equal (key (kv s)) k).

(** [mask()] *)
Definition mask (t : hash_table) : result Z :=
  let n := vsize (slots t) in
  assert_ (negb (n =? 0) && (Z.land n (wrap (n - 1)) =? 0));;;
  Ok (wrap (n - 1)).

(** [key_index(key)] *)
Definition key_index (t : hash_table) (k : Key) : result Z :=
  m <- mask t;;
  Ok (Z.land (Hash k) m).

(** [should_rehash()] *)
Definition should_rehash (t : hash_table) : bool :=
  (vsize (slots t) =? 0) || (wrap (vsize (slots t) * 3) / 4 <? count t).

(** The do-while loop of [get_slot], entered at slot [i] with the given
    [hash_offset].  It tests a slot, steps, and goes round again while
    [hash_offset <= max_hash_offset]. *)
Fixpoint get_slot_loop (t : hash_table) (k : Key) (fuel : nat)
    (i hash_offset : Z) : result (option Z) :=
  s <- vget (slots t) i;;
  b <- (if used s then equals s k else Ok false);;
  if b : bool then Ok (Some i)
  else
    m <- mask t;;
    let i := Z.land (wrap (i + 1)) m in
    let hash_offset := wrap (hash_offset + 1) in
    if hash_offset <=? max_hash_offset t then
      match fuel with
      | O => Diverge
      | S fuel => get_slot_loop t k fuel i hash_offset
      end
    else Ok None.

(** [get_slot(key)]: the index of the slot holding [key], or [None] for
    [nullptr].  The loop goes round at most [max_hash_offset] times unless
    [hash_offset] wraps. *)
Definition get_slot (t : hash_table) (k : Key) : result (option Z) :=
  if vsize (slots t) =? 0 then Ok None
  else
    i <- key_index t k;;
    get_slot_loop t k (Z.to_nat (max_hash_offset t)) i 0.

(** The while loop of [insert_nonexistent_norehash]: the first unused slot
    from [i] on, and the number of steps taken to reach it. *)
Fixpoint find_unused (t : hash_table) (fuel : nat) (i hash_offset : Z)
    : result (Z * Z) :=
  s <- vget (slots t) i;;
  if used s then
    m <- mask t;;
    match fuel with
    | O => Diverge
    | S fuel => find_unused t fuel (Z.land (wrap (i + 1)) m) (wrap (hash_offset + 1))
    end
  else Ok (i, hash_offset).

(** [insert_nonexistent_norehash(key, value)]; the result is the index of
    the slot written and the table after the call.  The loop is given one
    round of the whole slot array: were every slot used, it would never
    leave. *)
Definition insert_nonexistent_norehash (t : hash_table) (k : Key) (v : Value)
    : result (Z * hash_table) :=
  assert_ (negb (should_rehash t));;;
  assert_ (count t <? vsize (slots t));;;
  r <- get_slot t k;;
  assert_ (match r with None => true | Some _ => false end);;;
  i <- key_index t k;;
  p <- find_unused t (length (slots t)) i 0;;
  let '(i, hash_offset) := p in
  let slots' := vset (slots t) i (Slot_of k v) in
  s <- vget slots' i;;
  assert_ (used s);;;
  let count' := wrap (count t + 1) in
  let max' := if max_hash_offset t <? hash_offset
              then hash_offset else max_hash_offset t in
  Ok (i, mkTable slots' count' max').

(** [clear()] *)
Definition clear (t : hash_table) : hash_table := mkTable [] 0 0.

(** The range-for loop of [rehash] over the old slot array. *)
Fixpoint reinsert (old_slots : list Slot) (t : hash_table) : result hash_table :=
  match old_slots with
  | [] => Ok t
  | slot :: rest =>
      if used slot then
        r <- insert_nonexistent_norehash t (key (kv slot)) (value (kv slot));;
        reinsert rest (snd r)
      else reinsert rest t
  end.

(** [rehash()] *)
Definition rehash (avail : Z) (t : hash_table) : result hash_table :=
  let new_size := if vsize (slots t) =? 0 then 8 else wrap (vsize (slots t) * 2) in
  let old_slots := slots t in
  let t := clear t in
  match resize avail (slots t) new_size with
  | None => Throw t
  | Some s => reinsert old_slots (mkTable s (count t) (max_hash_offset t))
  end.

(** ** Constructors and resource management *)

(** [hash_table()] *)
Definition hash_table_new : hash_table := mkTable [] 0 0.

(** The while loop of [hash_table(std::size_t capacity)]. *)
Fixpoint grow_cap (fuel : nat) (real_cap min_num_slots : Z) : result Z :=
  if real_cap <? min_num_slots then
    match fuel with
    | O => Diverge
    | S fuel => grow_cap fuel (wrap (real_cap * 2)) min_num_slots
    end
  else Ok real_cap.

(** [hash_table(std::size_t capacity) noexcept]: a failed allocation ends
    in [std::terminate].  Once [real_cap] has wrapped to 0 the loop never
    leaves, and 64 doublings are enough to see that. *)
Definition hash_table_with_capacity (avail : Z) (capacity : Z) : result hash_table :=
  let t := hash_table_new in
  let min_num_slots := wrap (wrap (capacity * 4) + 2) / 3 in
  real_cap <- grow_cap 64 8 min_num_slots;;
  match resize avail (slots t) real_cap with
  | None => Abort
  | Some s => Ok (mkTable s (count t) (max_hash_offset t))
  end.

(** [hash_table(hash_table &&other)]: the new table and what is left of
    [other]. *)
Definition hash_table_move (other : hash_table) : hash_table * hash_table :=
  (mkTable (slots other) (count other) (max_hash_offset other), clear other).

(** [swap(lhs, rhs)] *)
Definition swap (lhs rhs : hash_table) : hash_table * hash_table :=
  (mkTable (slots rhs) (count rhs) (max_hash_offset rhs),
   mkTable (slots lhs) (count lhs) (max_hash_offset lhs)).

(** ** Get, insert or replace, delete *)

(** [get(key)]: the value pointed to, or [None] for [nullptr]. *)
Definition get (t : hash_table) (k : Key) : result (option Value) :=
  r <- get_slot t k;;
  match r with
  | Some i => s <- vget (slots t) i;; Ok (Some (value (kv s)))
  | None => Ok None
  end.

(** The three overloads of [get_or] are not embedded: each is [const] and
    initialises a [Slot *] from the [const Slot *] that the const
    [get_slot] returns, so no call of them compiles. *)

(** [set(key, value)]; the result is the index of the slot that holds the
    value and the table after the call. *)
Definition set (avail : Z) (t : hash_table) (k : Key) (v : Value)
    : result (Z * hash_table) :=
  r <- get_slot t k;;
  match r with
  | Some i =>
      s <- vget (slots t) i;;
      let s' := mkSlot (mkKeyValue (key (kv s)) v) (used s) in
      Ok (i, mkTable (vset (slots t) i s') (count t) (max_hash_offset t))
  | None =>
      t <- (if should_rehash t then rehash avail t else Ok t);;
      insert_nonexistent_norehash t k v
  end.

(** [*p = v] or [it->value = v], through the pointer or reference to the
    value of slot [i] that [get], [set] or [operator[]] handed out, or
    through an iterator at slot [i].  The dereference checks the index
    only ([operator->] asserts [slot_index < slots.size()]), not the
    [used] flag: the write goes through for a free slot as well.  The key
    is left alone, as [KeyValue] asks of the user. *)
Definition store (t : hash_table) (i : Z) (v : Value) : result hash_table :=
  s <- vget (slots t) i;;
  let s' := mkSlot (mkKeyValue (key (kv s)) v) (used s) in
  Ok (mkTable (vset (slots t) i s') (count t) (max_hash_offset t)).

(** [remove(key)] *)
Definition remove (t : hash_table) (k : Key) : result hash_table :=
  r <- get_slot t k;;
  match r with
  | Some i =>
      let slots' := vset (slots t) i Slot_empty in
      s <- vget slots' i;;
      assert_ (negb (used s));;;
      Ok (mkTable slots' (wrap (count t - 1)) (max_hash_offset t))
  | None => Ok t
  end.

(** The range-for loop of [hash_table(std::initializer_list<KeyValue>)]:
    [set] each element in turn. *)
Fixpoint set_each (avail : Z) (t : hash_table) (elems : list KeyValue)
    : result hash_table :=
  match elems with
  | [] => Ok t
  | elem :: rest =>
      r <- set avail t (key elem) (value elem);;
      set_each avail (snd r) rest
  end.

(** [hash_table(std::initializer_list<KeyValue> elems)] *)
Definition hash_table_of_list (avail : Z) (elems : list KeyValue)
    : result hash_table :=
  t <- hash_table_with_capacity avail (wrap (Z.of_nat (length elems)));;
  set_each avail t elems.

(** [size()] *)
Definition size (t : hash_table) : Z := count t.

(** [empty()] *)
Definition empty (t : hash_table) : bool := size t =? 0.

(** [operator[](key)] *)
Definition subscript (avail : Z) (t : hash_table) (k : Key)
    : result (Z * hash_table) :=
  r <- get_slot t k;;
  match r with
  | Some i => Ok (i, t)
  | None => set avail t k default_value
  end.

(** ** Iterators: a cursor is the [slot_index] into its owner's slots *)

(** The loop shared by [begin()] and [operator++]: skip the unused slots
    from [slot_index] on. *)
Fixpoint skip_unused (t : hash_table) (fuel : nat) (slot_index : Z) : result Z :=
  if slot_index <? vsize (slots t) then
    s <- vget (slots t) slot_index;;
    if negb (used s) then
      match fuel with
      | O => Diverge
      | S fuel => skip_unused t fuel (wrap (slot_index + 1))
      end
    else Ok slot_index
  else Ok slot_index.

(** [begin()] *)
Definition begin_ (t : hash_table) : result Z :=
  skip_unused t (length (slots t)) 0.

(** [end()] *)
Definition end_ (t : hash_table) : Z := vsize (slots t).

(** [operator*] and [operator->] *)
Definition deref (t : hash_table) (slot_index : Z) : result KeyValue :=
  assert_ (slot_index <? vsize (slots t));;;
  s <- vget (slots t) slot_index;;
  Ok (kv s).

(** [operator++] *)
Definition incr (t : hash_table) (slot_index : Z) : result Z :=
  assert_ (slot_index <? vsize (slots t));;;
  skip_unused t (length (slots t)) (wrap (slot_index + 1)).

(** [for (auto it = begin(); it != end(); ++it)], collecting [*it]. *)
Fixpoint iterate (t : hash_table) (fuel : nat) (it : Z) : result (list KeyValue) :=
  if it =? end_ t then Ok []
  else
    match fuel with
    | O => Diverge
    | S fuel =>
        x <- deref t it;;
        it' <- incr t it;;
        rest <- iterate t fuel it';;
        Ok (x :: rest)
    end.

(** The sequence a range-for over the table yields. *)
Definition items (t : hash_table) : result (list KeyValue) :=
  it <- begin_ t;;
  iterate t (length (slots t)) it.

(** [cbegin()] *)
Definition cbegin (t : hash_table) : result Z := begin_ t.

(** [cend()] *)
Definition cend (t : hash_table) : Z := end_ t.

(** [operator++(int)]: the cursor as it was, and the cursor advanced. *)
Definition post_incr (t : hash_table) (slot_index : Z) : result (Z * Z) :=
  let prev := slot_index in
  it <- incr t slot_index;;
  Ok (prev, it).

(** [operator=(hash_table other)]: [other] is the argument, passed by
    value; the result is [*this] after the swap. *)
Definition assign (this other : hash_table) : hash_table :=
  fst (swap this other).

(** [find(key)] *)
Definition find (t : hash_table) (k : Key) : result Z :=
  r <- get_slot t k;;
  match r with
  | Some i => Ok i
  | None => Ok (end_ t)
  end.

(** [erase(it)] *)
Definition erase (t : hash_table) (it : Z) : result hash_table :=
  x <- deref t it;;
  remove t (key x).

(** ** Representation invariant and abstract contents *)

(** The number of slots whose [used] flag is set. *)
Definition count_used (v : list Slot) : Z :=
  Z.of_nat (length (List.filter used v)).

(** Slot [j] is used and holds the pair [k], [v]. *)
Definition holds_at (t : hash_table) (j : nat) (k : Key) (v : Value) : Prop :=
  slots t !! j = Some (Slot_of k v).

(** The table holds the pair [k], [v] in some slot. *)
Definition holds (t : hash_table) (k : Key) (v : Value) : Prop :=
  ∃ j, holds_at t j k v.

(** The number of slots. *)
Definition capacity (t : hash_table) : Z := vsize (slots t).

(** A capacity the table can have: none, or a power of two from 8 up to
    the largest one a vector of slots can reach. *)
Definition is_capacity (n : Z) : Prop :=
  n = 0 ∨ ∃ e, 3 ≤ e ≤ 61 ∧ n = 2 ^ e.

(** The probe offset of slot [j] for the key [k]: the distance from the
    natural slot of [k] to [j], walking forward with wrap-around. *)
Definition displacement (t : hash_table) (j : nat) (k : Key) : Z :=
  (Z.of_nat j - Hash k) mod capacity t.

(** The representation invariant: the capacity is none or a power of
    two; [count] counts the used slots and is at most one more than three
    quarters of the capacity; [max_hash_offset] lies within the slot array
    and bounds the probe offset of every key held; no key is held twice. *)
Record wf (t : hash_table) : Prop := mk_wf {
  wf_capacity : is_capacity (capacity t);
  wf_count : count t = count_used (slots t);
  wf_load : 4 * count t ≤ 3 * capacity t + 4;
  wf_max : 0 ≤ max_hash_offset t ∧
           (max_hash_offset t < capacity t ∨ max_hash_offset t = 0);
  wf_offset : ∀ j k v, holds_at t j k v → displacement t j k ≤ max_hash_offset t;
  wf_unique : ∀ j1 j2 k v1 v2, holds_at t j1 k v1 → holds_at t j2 k v2 → j1 = j2
}.

(** ** Slots along a probe walk *)

(** Slot [i] is used and holds the key [k]. *)
Definition key_at (t : hash_table) (k : Key) (i : Z) : Prop :=
  ∃ s, slots t !! Z.to_nat i = Some s ∧ used s = true ∧ key (kv s) = k.

(** Slot [i] is used. *)
Definition used_at (t : hash_table) (i : Z) : Prop :=
  ∃ s, slots t !! Z.to_nat i = Some s ∧ used s = true.

(** Slot [i] is free. *)
Definition free_at (t : hash_table) (i : Z) : Prop :=
  ∃ s, slots t !! Z.to_nat i = Some s ∧ used s = false.

(** The used slots are the first [count t] slots from the natural slot
    of the hash [h] on. *)
Definition packed (h : Z) (t : hash_table) : Prop :=
  (∀ d, 0 ≤ d < count t → used_at t ((h + d) mod capacity t)) ∧
  (∀ d, count t ≤ d < capacity t → free_at t ((h + d) mod capacity t)).

(** The capacity [rehash] asks for. *)
Definition grown (n : Z) : Z := if n =? 0 then 8 else 2 * n.

(** The pairs of the used slots, in the order of the slot array. *)
Definition contents (t : hash_table) : list KeyValue :=
  List.map kv (List.filter used (slots t)).

(** The table a call leaves behind, when it returns or throws. *)
Definition table_after {A : Type} (r : result (A * hash_table)) : option hash_table :=
  match r with
  | Ok (_, t) => Some t
  | Throw t => Some t
  | Abort | Diverge => None
  end.

(** The same for a call that returns nothing but the table. *)
Definition table_after' (r : result hash_table) : option hash_table :=
  match r with
  | Ok t => Some t
  | Throw t => Some t
  | Abort | Diverge => None
  end.

(** The states a table can be in: those the constructors make and the
    public member functions lead to, whatever the allocator grants, with
    the writes through the pointers and iterators they hand out. *)
Inductive reachable : hash_table → Prop :=
| reach_new : reachable hash_table_new
| reach_with_capacity avail n t :
    0 ≤ n < 2 ^ size_t_bits →
    hash_table_with_capacity avail n = Ok t → reachable t
| reach_move_to t : reachable t → reachable (fst (hash_table_move t))
| reach_move_from t : reachable t → reachable (snd (hash_table_move t))
| reach_swap_l t1 t2 : reachable t1 → reachable t2 → reachable (fst (swap t1 t2))
| reach_swap_r t1 t2 : reachable t1 → reachable t2 → reachable (snd (swap t1 t2))
| reach_clear t : reachable t → reachable (clear t)
| reach_set avail t k v t' :
    reachable t → table_after (set avail t k v) = Some t' → reachable t'
| reach_subscript avail t k t' :
    reachable t → table_after (subscript avail t k) = Some t' → reachable t'
| reach_store t i v t' :
    reachable t → store t i v = Ok t' → reachable t'
| reach_remove t k t' :
    reachable t → table_after' (remove t k) = Some t' → reachable t'
| reach_erase t it t' :
    reachable t → table_after' (erase t it) = Some t' → reachable t'.

(** A run of [set] calls that all return, from one table to another. *)
Inductive set_run : hash_table → list (Key * Value) → hash_table → Prop :=
| set_run_nil t : set_run t [] t
| set_run_cons avail t k v i t1 calls t' :
    set avail t k v = Ok (i, t1) →
    set_run t1 calls t' →
    set_run t ((k, v) :: calls) t'.

(** The value of the most recent [set(k, _)] among [calls], if any. *)
Fixpoint last_set (calls : list (Key * Value)) (k : Key) : option Value :=
  match calls with
  | [] => None
  | (k', v) :: rest =>
      match last_set rest k with
      | Some v' => Some v'
      | None => if Equal k' k then Some v else None
      end
  end.

(** The calls an initializer list stands for. *)
Definition calls_of (elems : list KeyValue) : list (Key * Value) :=
  List.map (λ elem, (key elem, value elem)) elems.

(** Every unused slot satisfies [P]. *)
Definition unused_all (P : Slot → Prop) (v : list Slot) : Prop :=
  ∀ j s, v !! j = Some s → used s = false → P s.

(** Every unused slot is as [Slot()] makes it. *)
Definition unused_cleared (v : list Slot) : Prop :=
  unused_all (λ s, s = Slot_empty) v.

(** Every unused slot holds [Key{}]. *)
Definition unused_keys_cleared (v : list Slot) : Prop :=
  unused_all (λ s, key (kv s) = default_key) v.

End HashTable.

Arguments Ok {Key Value A} a.
Arguments Throw {Key Value A} t.
Arguments Abort {Key Value A}.
Arguments Diverge {Key Value A}.

(** ** Two instances of the template *)

(** [hash_table<std::string, int, H>] with a hash [H] that sends every
    key to 5. *)
#[export] Instance colliding_strings : TableOps string Z := {|
  Hash := λ _, 5;
  Equal := String.eqb;
  default_key := "";
  default_value := 0
|}.

(** [hash_table<int, int>] with the identity as hash. *)
#[export] Instance plain_ints : TableOps Z Z := {|
  Hash := λ k, k;
  Equal := Z.eqb;
  default_key := 0;
  default_value := 0
|}.

(** The pairs [k], [10 * k]. *)
Definition decades (ks : list Z) : list (@KeyValue Z Z) :=
  List.map (λ k, mkKeyValue k (10 * k)) ks.

(** A default-constructed table after [set(k, 10 * k)] for [k] from 1 to
    7, with memory for eight slots. *)
Definition seven : @hash_table Z Z :=
  Eval vm_compute in
    default hash_table_new (table_after' (set_each 8 hash_table_new (decades [1; 2; 3; 4; 5; 6; 7]))).

(** A default-constructed table after [set(1, 10)], [set(2, 20)],
    [set(1, 11)]. *)
Definition thrice : @hash_table Z Z :=
  Eval vm_compute in
    default hash_table_new
      (table_after' (set_each 8 hash_table_new
         [mkKeyValue 1 10; mkKeyValue 2 20; mkKeyValue 1 11])).

(** [seven] after [set(8, 80)], with memory for sixteen slots. *)
Definition eight : @hash_table Z Z :=
  Eval vm_compute in default hash_table_new (table_after (set 16 seven 8 80)).

(** [seven] after [rehash()], with memory for sixteen slots. *)
Definition seven_rehashed : @hash_table Z Z :=
  Eval vm_compute in default hash_table_new (table_after' (rehash 16 seven)).

(** A table pre-sized for seven entries. *)
Definition presized : @hash_table Z Z :=
  Eval vm_compute in
    default hash_table_new (table_after' (hash_table_with_capacity 100 7)).

(** [seven] after [remove(3)]. *)
Definition six : @hash_table Z Z :=
  Eval vm_compute in default hash_table_new (table_after' (remove seven 3)).

(** ** Arithmetic of sizes *)

Lemma wrap_small x : 0 ≤ x < 2 ^ 64 → wrap x = x.
Proof. intros H. unfold wrap, size_t_bits. apply Z.mod_small. exact H. Qed.

Lemma pow2_bounds e : 3 ≤ e ≤ 61 → 8 ≤ 2 ^ e ≤ 2 ^ 61.
Proof.
  intros H. split.
  - change 8 with (2 ^ 3). apply Z.pow_le_mono_r; lia.
  - apply Z.pow_le_mono_r; lia.
Qed.

Lemma pow2_quarter e : 3 ≤ e ≤ 61 → ∃ q, 2 ≤ q ∧ 2 ^ e = 4 * q.
Proof.
  intros H. exists (2 ^ (e - 2)). split.
  - change 2 with (2 ^ 1) at 1. apply Z.pow_le_mono_r; lia.
  - change 4 with (2 ^ 2). rewrite <- Z.pow_add_r by lia. f_equal. lia.
Qed.

Lemma land_mask e x : 0 ≤ e → Z.land x (2 ^ e - 1) = x mod 2 ^ e.
Proof.
  intros H. rewrite <- Z.land_ones by exact H.
  f_equal. rewrite Z.ones_equiv. lia.
Qed.

Lemma is_capacity_cases n :
  is_capacity n → n = 0 ∨ (8 ≤ n ≤ 2 ^ 61 ∧ ∃ e, 3 ≤ e ≤ 61 ∧ n = 2 ^ e).
Proof.
  intros [-> | (e & He & ->)]; [by left | right].
  split; [by apply pow2_bounds | eauto].
Qed.

(** Walking forward round a ring of [n] slots. *)
Lemma ring_step h d n : 0 < n → ((h + d) mod n + 1) mod n = (h + (d + 1)) mod n.
Proof.
  intros H. rewrite Z.add_mod_idemp_l by lia. f_equal. lia.
Qed.

Lemma ring_reach h j n : 0 ≤ j < n → (h + (j - h) mod n) mod n = j.
Proof.
  intros H. rewrite Z.add_mod_idemp_r by lia.
  replace (h + (j - h)) with j by lia. apply Z.mod_small. exact H.
Qed.

Lemma ring_offset h d n : 0 ≤ d < n → ((h + d) mod n - h) mod n = d.
Proof.
  intros H. rewrite Zminus_mod_idemp_l.
  replace (h + d - h) with d by lia. apply Z.mod_small. exact H.
Qed.

Lemma ring_range h d n : 0 < n → 0 ≤ (h + d) mod n < n.
Proof. intros H. apply Z.mod_pos_bound. exact H. Qed.

Section Proofs.

Context {Key Value : Type} {Ops : TableOps Key Value}.

(** [Equal] decides equality of keys, as [std::equal_to] does. *)
Hypothesis Equal_spec : ∀ a b : Key, Equal a b = true ↔ a = b.

Local Abbreviation Slot := (@Slot Key Value).
Local Abbreviation hash_table := (@hash_table Key Value).

(** ** The slot vector *)

Lemma vsize_nonneg (v : list Slot) : 0 ≤ vsize v.
Proof. unfold vsize. lia. Qed.

Lemma vget_Ok (v : list Slot) i s :
  vget v i = Ok s ↔ 0 ≤ i ∧ v !! Z.to_nat i = Some s.
Proof.
  unfold vget, vsize.
  destruct (0 <=? i) eqn:H0; destruct (i <? Z.of_nat (length v)) eqn:H1; simpl.
  - destruct (v !! Z.to_nat i) eqn:E; split.
    + intros [= ->]. split; [lia | done].
    + intros [_ [= ->]]. done.
    + done.
    + intros [_ ?]. done.
  - split; [done |]. intros [_ H]. apply lookup_lt_Some in H. lia.
  - split; [done |]. lia.
  - split; [done |]. lia.
Qed.

Lemma vget_nat (v : list Slot) (j : nat) s :
  v !! j = Some s → vget v (Z.of_nat j) = Ok s.
Proof. intros H. apply vget_Ok. rewrite Nat2Z.id. split; [lia | done]. Qed.

Lemma vget_in_range (v : list Slot) i :
  0 ≤ i < vsize v → ∃ s, vget v i = Ok s ∧ v !! Z.to_nat i = Some s.
Proof.
  intros H. unfold vsize in H.
  destruct (lookup_lt_is_Some_2 v (Z.to_nat i)) as [s Hs]; [lia |].
  exists s. split; [| done]. apply vget_Ok. split; [lia | done].
Qed.

Lemma vsize_vset (v : list Slot) i s : vsize (vset v i s) = vsize v.
Proof. unfold vsize, vset. by rewrite length_insert. Qed.

Lemma count_used_app (v1 v2 : list Slot) :
  count_used (v1 ++ v2) = count_used v1 + count_used v2.
Proof. unfold count_used. rewrite List.filter_app, length_app. lia. Qed.

Lemma count_used_cons (s : Slot) v :
  count_used (s :: v) = (if used s then 1 else 0) + count_used v.
Proof. unfold count_used. simpl. destruct (used s); simpl; lia. Qed.

Lemma count_used_bounds (v : list Slot) : 0 ≤ count_used v ≤ vsize v.
Proof.
  unfold count_used, vsize. split; [lia |].
  apply inj_le, List.filter_length_le.
Qed.

Lemma count_used_insert (v : list Slot) (j : nat) s s' :
  v !! j = Some s →
  count_used (<[j:=s']> v) =
    count_used v - (if used s then 1 else 0) + (if used s' then 1 else 0).
Proof.
  intros H.
  rewrite insert_take_drop by (by eapply lookup_lt_Some).
  rewrite <- (take_drop_middle v j s H) at 3.
  rewrite !count_used_app, !count_used_cons. lia.
Qed.

Lemma count_used_replicate n : count_used (replicate n Slot_empty) = 0.
Proof.
  induction n as [| n IH]; [done |].
  simpl. rewrite count_used_cons. simpl. lia.
Qed.

(** With fewer used slots than slots, some slot is unused. *)
Lemma unused_slot_exists (v : list Slot) :
  count_used v < vsize v → ∃ j s, v !! j = Some s ∧ used s = false.
Proof.
  induction v as [| s v IH]; unfold vsize; simpl; intros H.
  - unfold count_used in H. simpl in H. lia.
  - destruct (used s) eqn:E.
    + rewrite count_used_cons, E in H.
      destruct IH as (j & s' & Hj & Hs'); [unfold vsize; lia |].
      exists (S j), s'. done.
    + exists 0%nat, s. done.
Qed.

(** ** The natural slot and the ring of slots *)

Lemma mask_Ok (t : hash_table) e :
  3 ≤ e ≤ 61 → capacity t = 2 ^ e → mask t = Ok (capacity t - 1).
Proof.
  intros He Hn. unfold mask. fold (capacity t).
  pose proof (pow2_bounds e He) as Hb. rewrite <- Hn in Hb.
  rewrite wrap_small by lia.
  replace (Z.land (capacity t) (capacity t - 1)) with 0.
  - destruct (capacity t =? 0) eqn:E; [lia | done].
  - rewrite Hn, land_mask by lia. by rewrite Z.mod_same by lia.
Qed.

Lemma key_index_Ok (t : hash_table) e k :
  3 ≤ e ≤ 61 → capacity t = 2 ^ e →
  key_index t k = Ok (Hash k mod capacity t).
Proof.
  intros He Hn. unfold key_index. rewrite (mask_Ok t e He Hn). simpl.
  f_equal. rewrite Hn. apply land_mask. lia.
Qed.

Lemma next_index n e i :
  3 ≤ e ≤ 61 → n = 2 ^ e → 0 ≤ i < n →
  Z.land (wrap (i + 1)) (n - 1) = (i + 1) mod n.
Proof.
  intros He Hn Hi. pose proof (pow2_bounds e He) as Hb.
  rewrite wrap_small by lia. subst n. apply land_mask. lia.
Qed.

(** ** The bounded walk of [get_slot] *)

Lemma get_slot_loop_step (t : hash_table) k fuel i hash_offset s m :
  vget (slots t) i = Ok s → mask t = Ok m →
  get_slot_loop t k fuel i hash_offset =
    if used s && Equal (key (kv s)) k then Ok (Some i)
    else if wrap (hash_offset + 1) <=? max_hash_offset t then
           match fuel with
           | O => Diverge
           | S fuel => get_slot_loop t k fuel (Z.land (wrap (i + 1)) m)
                         (wrap (hash_offset + 1))
           end
         else Ok None.
Proof.
  intros Hs Hm.
  destruct fuel; simpl; rewrite Hs; simpl; unfold equals;
    destruct (used s); simpl; destruct (Equal (key (kv s)) k); simpl;
    rewrite ?Hm; reflexivity.
Qed.

Lemma get_slot_loop_spec (t : hash_table) k e :
  3 ≤ e ≤ 61 → capacity t = 2 ^ e →
  max_hash_offset t < 2 ^ 62 →
  ∀ fuel off,
    0 ≤ off → off + Z.of_nat fuel = max_hash_offset t →
    (∃ d, off ≤ d ≤ max_hash_offset t ∧
          key_at t k ((Hash k + d) mod capacity t) ∧
          get_slot_loop t k fuel ((Hash k + off) mod capacity t) off
            = Ok (Some ((Hash k + d) mod capacity t)))
    ∨ ((∀ d, off ≤ d ≤ max_hash_offset t →
             ¬ key_at t k ((Hash k + d) mod capacity t)) ∧
       get_slot_loop t k fuel ((Hash k + off) mod capacity t) off = Ok None).
Proof.
  intros He Hn Hmax.
  pose proof (pow2_bounds e He) as Hb. rewrite <- Hn in Hb.
  induction fuel as [| fuel IH]; intros off Hoff Hfuel.
  all: pose proof (ring_range (Hash k) off (capacity t) ltac:(lia)) as Hi.
  all: destruct (vget_in_range (slots t) _ Hi) as (s & Hs & Hlook).
  all: rewrite (get_slot_loop_step t k _ _ off s _ Hs (mask_Ok t e He Hn)).
  all: rewrite (wrap_small (off + 1)) by lia.
  all: destruct (used s && Equal (key (kv s)) k) eqn:Hhit.
  - left. exists off. apply andb_true_iff in Hhit as [Hu Heq].
    apply Equal_spec in Heq. split; [lia |]. split; [by exists s | done].
  - right. replace (off + 1 <=? max_hash_offset t) with false by lia.
    split; [| done]. intros d Hd (s' & Hs' & Hu & Hk).
    assert (d = off) as -> by lia.
    rewrite Hlook in Hs'. injection Hs' as <-.
    apply Equal_spec in Hk. rewrite Hu, Hk in Hhit. done.
  - left. exists off. apply andb_true_iff in Hhit as [Hu Heq].
    apply Equal_spec in Heq. split; [lia |]. split; [by exists s | done].
  - replace (off + 1 <=? max_hash_offset t) with true by lia.
    rewrite (next_index _ e) by done.
    rewrite ring_step by lia.
    destruct (IH (off + 1)) as [(d & Hd & Hk & Hr) | (Hno & Hr)]; [lia | lia | |].
    + left. exists d. split; [lia | done].
    + right. split; [| done]. intros d Hd Hk.
      destruct (decide (d = off)) as [-> | Hne].
      * destruct Hk as (s' & Hs' & Hu & Hk).
        rewrite Hlook in Hs'. injection Hs' as <-.
        apply Equal_spec in Hk. rewrite Hu, Hk in Hhit. done.
      * apply (Hno d); [lia | done].
Qed.

Lemma holds_at_key_at (t : hash_table) j k v :
  holds_at t j k v → key_at t k (Z.of_nat j).
Proof.
  unfold holds_at. intros H. exists (Slot_of k v).
  rewrite Nat2Z.id. done.
Qed.

Lemma key_at_holds_at (t : hash_table) k i :
  key_at t k i → ∃ v, holds_at t (Z.to_nat i) k v.
Proof.
  intros (s & Hs & Hu & Hk). exists (value (kv s)).
  unfold holds_at, Slot_of. rewrite Hs. f_equal.
  destruct s as [[k' v'] u]. simpl in *. by subst.
Qed.

Lemma holds_at_range (t : hash_table) j k v :
  holds_at t j k v → 0 ≤ Z.of_nat j < capacity t.
Proof.
  unfold holds_at, capacity, vsize. intros H%lookup_lt_Some. lia.
Qed.

Lemma wf_max_small (t : hash_table) :
  wf t → 0 ≤ max_hash_offset t < 2 ^ 62.
Proof.
  intros Hwf. destruct (wf_max _ Hwf) as [H0 H1].
  destruct (is_capacity_cases _ (wf_capacity _ Hwf)) as [Hn | [Hn _]]; lia.
Qed.

(** [get_slot] finds the slot of a key the table holds, and nothing else. *)
Lemma get_slot_spec (t : hash_table) k :
  wf t →
  (∃ j v, holds_at t j k v ∧ get_slot t k = Ok (Some (Z.of_nat j)))
  ∨ ((∀ v, ¬ holds t k v) ∧ get_slot t k = Ok None).
Proof.
  intros Hwf. unfold get_slot. fold (capacity t).
  destruct (is_capacity_cases _ (wf_capacity _ Hwf))
    as [Hn | [Hb (e & He & Hn)]].
  - right. rewrite Hn. simpl. split; [| done].
    intros v [j Hj%holds_at_range]. lia.
  - replace (capacity t =? 0) with false by lia.
    rewrite (key_index_Ok t e k He Hn). simpl.
    pose proof (wf_max_small t Hwf) as Hmax.
    destruct (get_slot_loop_spec t k e He Hn ltac:(lia)
                (Z.to_nat (max_hash_offset t)) 0 ltac:(lia) ltac:(lia))
      as [(d & Hd & Hk & Hr) | (Hno & Hr)];
      rewrite Z.add_0_r in Hr; rewrite Hr.
    + left. destruct (key_at_holds_at _ _ _ Hk) as [v Hv].
      exists (Z.to_nat ((Hash k + d) mod capacity t)), v. split; [done |].
      rewrite Z2Nat.id; [done |]. apply ring_range. lia.
    + right. split; [| done]. intros v [j Hj].
      apply (Hno (displacement t j k)).
      * pose proof (wf_offset _ Hwf j k v Hj).
        unfold displacement in *.
        pose proof (Z.mod_pos_bound (Z.of_nat j - Hash k) (capacity t)). lia.
      * unfold displacement.
        rewrite ring_reach by (by eapply holds_at_range).
        by eapply holds_at_key_at.
Qed.

(** [get] returns the value the table holds for the key, if any. *)
Lemma get_spec (t : hash_table) k :
  wf t →
  (∃ v, holds t k v ∧ get t k = Ok (Some v))
  ∨ ((∀ v, ¬ holds t k v) ∧ get t k = Ok None).
Proof.
  intros Hwf. unfold get.
  destruct (get_slot_spec t k Hwf) as [(j & v & Hj & ->) | [Hno ->]]; simpl.
  - left. exists v. split; [by exists j |].
    rewrite (vget_nat _ _ _ Hj). done.
  - right. done.
Qed.

Lemma holds_functional (t : hash_table) k v1 v2 :
  wf t → holds t k v1 → holds t k v2 → v1 = v2.
Proof.
  intros Hwf [j1 H1] [j2 H2].
  pose proof (wf_unique _ Hwf _ _ _ _ _ H1 H2) as ->.
  unfold holds_at in *. rewrite H1 in H2. by injection H2.
Qed.

Lemma get_Some (t : hash_table) k v :
  wf t → (get t k = Ok (Some v) ↔ holds t k v).
Proof.
  intros Hwf. destruct (get_spec t k Hwf) as [(v' & Hv' & ->) | [Hno ->]].
  - split.
    + intros [= ->]. done.
    + intros Hv. by rewrite (holds_functional t k v v' Hwf Hv Hv').
  - split; [done |]. intros Hv. by destruct (Hno v).
Qed.

Lemma get_None (t : hash_table) k :
  wf t → (get t k = Ok None ↔ ∀ v, ¬ holds t k v).
Proof.
  intros Hwf. destruct (get_spec t k Hwf) as [(v' & Hv' & ->) | [Hno ->]].
  - split; [done |]. intros Hno. by destruct (Hno v').
  - done.
Qed.

Lemma get_total (t : hash_table) k : wf t → ∃ o, get t k = Ok o.
Proof.
  intros Hwf. destruct (get_spec t k Hwf) as [(v' & Hv' & ->) | [Hno ->]]; eauto.
Qed.

(** ** The unbounded walk of [insert_nonexistent_norehash] *)

Lemma find_unused_step (t : hash_table) fuel i hash_offset s m :
  vget (slots t) i = Ok s → mask t = Ok m →
  find_unused t fuel i hash_offset =
    if used s then
      match fuel with
      | O => Diverge
      | S fuel => find_unused t fuel (Z.land (wrap (i + 1)) m)
                    (wrap (hash_offset + 1))
      end
    else Ok (i, hash_offset).
Proof.
  intros Hs Hm.
  destruct fuel; simpl; rewrite Hs; simpl; destruct (used s); simpl;
    rewrite ?Hm; reflexivity.
Qed.

(** The walk stops at the first free slot from the natural slot on, after
    as many steps as there are used slots before it. *)
Lemma find_unused_spec (t : hash_table) h e :
  3 ≤ e ≤ 61 → capacity t = 2 ^ e →
  (∃ j, 0 ≤ j < capacity t ∧ free_at t j) →
  ∀ fuel off,
    0 ≤ off → off + Z.of_nat fuel = capacity t →
    (∀ d, 0 ≤ d < off → used_at t ((h + d) mod capacity t)) →
    ∃ d, off ≤ d < capacity t ∧
         find_unused t fuel ((h + off) mod capacity t) off
           = Ok ((h + d) mod capacity t, d) ∧
         free_at t ((h + d) mod capacity t) ∧
         (∀ d', 0 ≤ d' < d → used_at t ((h + d') mod capacity t)).
Proof.
  intros He Hn (j0 & Hj0 & s0 & Hs0 & Hfree).
  pose proof (pow2_bounds e He) as Hb. rewrite <- Hn in Hb.
  assert (∀ off, (∀ d, 0 ≤ d < off → used_at t ((h + d) mod capacity t)) →
                 off < capacity t) as Hlt.
  { intros off Hused. destruct (Z_lt_ge_dec off (capacity t)); [done |].
    destruct (Hused ((j0 - h) mod capacity t)) as (s & Hs & Hu).
    - pose proof (Z.mod_pos_bound (j0 - h) (capacity t)). lia.
    - rewrite ring_reach in Hs by done. congruence. }
  induction fuel as [| fuel IH]; intros off Hoff Hfuel Hused.
  { specialize (Hlt off Hused). lia. }
  pose proof (ring_range h off (capacity t) ltac:(lia)) as Hi.
  destruct (vget_in_range (slots t) _ Hi) as (s & Hs & Hlook).
  rewrite (find_unused_step t _ _ off s _ Hs (mask_Ok t e He Hn)).
  destruct (used s) eqn:Hu.
  - rewrite (wrap_small (off + 1)) by lia.
    rewrite (next_index _ e) by done.
    rewrite ring_step by lia.
    assert (∀ d, 0 ≤ d < off + 1 → used_at t ((h + d) mod capacity t)) as Hused'.
    { intros d Hd. destruct (decide (d = off)) as [-> | Hne].
      - by exists s.
      - apply Hused. lia. }
    specialize (Hlt (off + 1) Hused').
    destruct (IH (off + 1)) as (d & Hd & Hr & Hf & Hbefore); [lia | lia | done |].
    exists d. split; [lia | done].
  - exists off. specialize (Hlt off Hused).
    split; [lia |]. split; [done |]. split; [by exists s | done].
Qed.

(** ** Writing one slot *)

Lemma holds_at_vset (t t' : hash_table) i s j k v :
  slots t' = vset (slots t) i s → 0 ≤ i < capacity t →
  holds_at t' j k v ↔
    (j = Z.to_nat i ∧ s = Slot_of k v) ∨ (j ≠ Z.to_nat i ∧ holds_at t j k v).
Proof.
  intros Hs Hi. unfold holds_at, vset, capacity, vsize in *. rewrite Hs.
  destruct (decide (j = Z.to_nat i)) as [-> | Hne].
  - rewrite list_lookup_insert_eq by lia. split.
    + intros [= ->]. by left.
    + intros [[_ ->] | [? _]]; done.
  - rewrite list_lookup_insert_ne by done. split.
    + intros H. by right.
    + intros [[? _] | [_ H]]; done.
Qed.

Lemma capacity_vset (t t' : hash_table) i s :
  slots t' = vset (slots t) i s → capacity t' = capacity t.
Proof. intros Hs. unfold capacity. rewrite Hs. apply vsize_vset. Qed.

Lemma should_rehash_false (t : hash_table) :
  wf t → should_rehash t = false →
  ∃ e, 3 ≤ e ≤ 61 ∧ capacity t = 2 ^ e ∧ 4 * count t ≤ 3 * capacity t.
Proof.
  intros Hwf Hsr. unfold should_rehash in Hsr. fold (capacity t) in Hsr.
  apply orb_false_iff in Hsr as [H0 Hc].
  destruct (is_capacity_cases _ (wf_capacity _ Hwf))
    as [Hn | [Hb (e & He & Hn)]]; [lia |].
  exists e. split; [done |]. split; [done |].
  destruct (pow2_quarter e He) as (q & Hq & Hn'). rewrite <- Hn in Hn'.
  rewrite wrap_small in Hc by lia.
  replace (capacity t * 3) with (3 * q * 4) in Hc by lia.
  rewrite Z.div_mul in Hc by lia. lia.
Qed.

Lemma should_rehash_true (t : hash_table) :
  wf t → should_rehash t = true →
  capacity t = 0 ∨ 3 * capacity t < 4 * count t.
Proof.
  intros Hwf Hsr. unfold should_rehash in Hsr. fold (capacity t) in Hsr.
  destruct (is_capacity_cases _ (wf_capacity _ Hwf))
    as [Hn | [Hb (e & He & Hn)]]; [by left | right].
  apply orb_true_iff in Hsr as [H0 | Hc]; [lia |].
  destruct (pow2_quarter e He) as (q & Hq & Hn'). rewrite <- Hn in Hn'.
  rewrite wrap_small in Hc by lia.
  replace (capacity t * 3) with (3 * q * 4) in Hc by lia.
  rewrite Z.div_mul in Hc by lia. lia.
Qed.

(** ** [insert_nonexistent_norehash] *)

(** What the call does on a well-formed table with room for the key: it
    writes the first free slot from the natural slot of the key on. *)
Lemma insert_spec (t : hash_table) k v :
  wf t → should_rehash t = false → (∀ v', ¬ holds t k v') →
  ∃ d, 0 ≤ d < capacity t ∧
       insert_nonexistent_norehash t k v =
         Ok ((Hash k + d) mod capacity t,
             mkTable (vset (slots t) ((Hash k + d) mod capacity t) (Slot_of k v))
                     (count t + 1) (Z.max (max_hash_offset t) d)) ∧
       free_at t ((Hash k + d) mod capacity t) ∧
       (∀ d', 0 ≤ d' < d → used_at t ((Hash k + d') mod capacity t)).
Proof.
  intros Hwf Hsr Hno.
  destruct (should_rehash_false t Hwf Hsr) as (e & He & Hn & Hload).
  pose proof (pow2_bounds e He) as Hb. rewrite <- Hn in Hb.
  pose proof (wf_count _ Hwf) as Hcount.
  pose proof (count_used_bounds (slots t)) as Hcu.
  assert (∃ j, 0 ≤ j < capacity t ∧ free_at t j) as Hfree.
  { destruct (unused_slot_exists (slots t)) as (j & s & Hj & Hs).
    - fold (capacity t). lia.
    - exists (Z.of_nat j). split.
      + apply lookup_lt_Some in Hj. unfold capacity, vsize. lia.
      + exists s. by rewrite Nat2Z.id. }
  destruct (find_unused_spec t (Hash k) e He Hn Hfree (length (slots t)) 0)
    as (d & Hd & Hr & Hf & Hbefore).
  { lia. }
  { unfold capacity, vsize. lia. }
  { intros d' Hd'. lia. }
  rewrite Z.add_0_r in Hr.
  exists d. split; [lia |]. split; [| done].
  unfold insert_nonexistent_norehash. rewrite Hsr. simpl.
  fold (capacity t). replace (count t <? capacity t) with true by lia. simpl.
  destruct (get_slot_spec t k Hwf) as [(j & v' & Hj & _) | [_ ->]].
  { destruct (Hno v'). by exists j. }
  simpl. rewrite (key_index_Ok t e k He Hn). simpl.
  rewrite Hr. simpl.
  pose proof (ring_range (Hash k) d (capacity t) ltac:(lia)) as Hi.
  replace (vget _ _) with (@Ok Key Value _ (Slot_of k v)).
  2:{ symmetry. apply vget_Ok. split; [lia |]. unfold vset.
      apply list_lookup_insert_eq. unfold capacity, vsize in *. lia. }
  simpl. rewrite wrap_small by lia.
  do 3 f_equal. destruct (Z.ltb_spec (max_hash_offset t) d); lia.
Qed.

Lemma free_not_holds (t : hash_table) i k v :
  free_at t i → ¬ holds_at t (Z.to_nat i) k v.
Proof.
  intros (s & Hs & Hu) H. unfold holds_at in H.
  rewrite Hs in H. injection H as ->. done.
Qed.

Lemma Slot_of_inj (k k' : Key) (v v' : Value) :
  Slot_of k v = Slot_of k' v' → k = k' ∧ v = v'.
Proof. intros [= -> ->]. done. Qed.

(** The call keeps the table well formed and adds exactly the new pair. *)
Lemma insert_ok (t : hash_table) k v :
  wf t → should_rehash t = false → (∀ v', ¬ holds t k v') →
  ∃ i t', insert_nonexistent_norehash t k v = Ok (i, t') ∧
          wf t' ∧
          capacity t' = capacity t ∧
          count t' = count t + 1 ∧
          max_hash_offset t ≤ max_hash_offset t' ∧
          (∀ k' v', holds t' k' v' ↔ (k' = k ∧ v' = v) ∨ holds t k' v').
Proof.
  intros Hwf Hsr Hno.
  destruct (insert_spec t k v Hwf Hsr Hno) as (d & Hd & Hr & Hf & _).
  destruct (should_rehash_false t Hwf Hsr) as (e & He & Hn & Hload).
  set (i := (Hash k + d) mod capacity t) in *.
  set (t' := mkTable (vset (slots t) i (Slot_of k v)) (count t + 1)
                     (Z.max (max_hash_offset t) d)) in *.
  assert (0 ≤ i < capacity t) as Hi by (apply ring_range; lia).
  assert (slots t' = vset (slots t) i (Slot_of k v)) as Hs by done.
  pose proof (capacity_vset t t' i _ Hs) as Hcap.
  assert (∀ j k' v', holds_at t' j k' v' ↔
            (j = Z.to_nat i ∧ k' = k ∧ v' = v)
            ∨ (j ≠ Z.to_nat i ∧ holds_at t j k' v')) as Hat.
  { intros j k' v'. rewrite (holds_at_vset t t' i _ j k' v' Hs Hi).
    split; (intros [[-> H] | H]; [left | by right]).
    - apply Slot_of_inj in H as [-> ->]. done.
    - destruct H as [-> ->]. done. }
  exists i, t'. split; [done |]. split; [| split; [done |]].
  - constructor.
    + rewrite Hcap. apply (wf_capacity _ Hwf).
    + destruct Hf as (s & Hlook & Hu). simpl. unfold vset.
      rewrite (count_used_insert _ _ s _ Hlook), Hu. simpl.
      rewrite (wf_count _ Hwf). lia.
    + rewrite Hcap. simpl. lia.
    + rewrite Hcap. simpl. destruct (wf_max _ Hwf). lia.
    + intros j k' v' H. apply Hat in H as [(-> & -> & ->) | [Hne H]].
      * unfold displacement. rewrite Hcap, Z2Nat.id by lia.
        unfold i. rewrite ring_offset by lia. simpl. lia.
      * pose proof (wf_offset _ Hwf j k' v' H) as Ho.
        unfold displacement in *. rewrite Hcap. simpl. lia.
    + intros j1 j2 k' v1 v2 H1 H2.
      apply Hat in H1 as [(-> & -> & ->) | [Hne1 H1]];
        apply Hat in H2 as [(-> & ? & ->) | [Hne2 H2]]; try done.
      * destruct (Hno v2). by exists j2.
      * subst k'. destruct (Hno v1). by exists j1.
      * by apply (wf_unique _ Hwf j1 j2 k' v1 v2).
  - split; [done |]. split; [simpl; lia |].
    intros k' v'. split.
    + intros [j H]. apply Hat in H as [(-> & -> & ->) | [Hne H]].
      * by left.
      * right. by exists j.
    + intros [[-> ->] | [j H]].
      * exists (Z.to_nat i). apply Hat. by left.
      * exists j. apply Hat. right. split; [| done].
        intros ->. by apply (free_not_holds t i k' v' Hf).
Qed.

Lemma should_rehash_false_intro (t : hash_table) :
  wf t → capacity t ≠ 0 → 4 * count t ≤ 3 * capacity t →
  should_rehash t = false.
Proof.
  intros Hwf Hn Hc. destruct (should_rehash t) eqn:E; [| done].
  destruct (should_rehash_true t Hwf E); lia.
Qed.

(** ** [rehash] *)

Lemma used_slot_eta (s : Slot) :
  used s = true → s = Slot_of (key (kv s)) (value (kv s)).
Proof. destruct s as [[k v] u]. simpl. by intros ->. Qed.

(** The loop of [rehash] adds the used slots of the old array, one by
    one, to the table under construction. *)
Lemma reinsert_ok (old : list Slot) :
  ∀ t : hash_table,
    wf t → capacity t ≠ 0 →
    4 * (count t + count_used old) ≤ 3 * capacity t + 4 →
    (∀ j k v v', old !! j = Some (Slot_of k v) → ¬ holds t k v') →
    (∀ j1 j2 k v1 v2, old !! j1 = Some (Slot_of k v1) →
                      old !! j2 = Some (Slot_of k v2) → j1 = j2) →
    ∃ t', reinsert old t = Ok t' ∧
          wf t' ∧
          capacity t' = capacity t ∧
          count t' = count t + count_used old ∧
          (∀ k v, holds t' k v ↔
                  holds t k v ∨ ∃ j, old !! j = Some (Slot_of k v)).
Proof.
  induction old as [| slot rest IH]; intros t Hwf Hn Hload Hfresh Huniq.
  - exists t. simpl. split; [done |]. split; [done |]. split; [done |].
    split; [unfold count_used; simpl; lia |].
    intros k v. split; [by left |]. intros [H | [j H]]; done.
  - simpl. rewrite count_used_cons in Hload.
    pose proof (count_used_bounds rest) as Hcu.
    destruct (used slot) eqn:Hu.
    + pose proof (used_slot_eta slot Hu) as Hslot.
      set (k := key (kv slot)) in *. set (v := value (kv slot)) in *.
      destruct (insert_ok t k v Hwf) as (i & t1 & -> & Hwf1 & Hcap1 & Hc1 & _ & Hh1).
      { apply should_rehash_false_intro; [done | done | lia]. }
      { intros v'. apply (Hfresh 0%nat k v v'). simpl. by f_equal. }
      simpl.
      destruct (IH t1) as (t' & Hr & Hwf' & Hcap' & Hc' & Hh'); [done | lia | lia | | |].
      { intros j k' v1 v2 Hj Hh. apply Hh1 in Hh as [[-> ->] | Hh].
        - assert (S j = 0%nat); [| done].
          apply (Huniq (S j) 0%nat k v1 v); simpl; [done | by f_equal].
        - by apply (Hfresh (S j) k' v1 v2). }
      { intros j1 j2 k' v1 v2 H1 H2.
        assert (S j1 = S j2); [| lia]. by apply (Huniq _ _ k' v1 v2). }
      exists t'. split; [done |]. split; [done |]. split; [lia |].
      split; [rewrite count_used_cons, Hu; lia |].
      intros k' v'. rewrite Hh', Hh1. split.
      * intros [[[-> ->] | H] | [j H]].
        -- right. exists 0%nat. simpl. by f_equal.
        -- by left.
        -- right. by exists (S j).
      * intros [H | [[| j] H]].
        -- left. by right.
        -- left. left. simpl in H. rewrite Hslot in H.
           injection H as -> ->. done.
        -- right. by exists j.
    + destruct (IH t) as (t' & Hr & Hwf' & Hcap' & Hc' & Hh'); [done | done | lia | | |].
      { intros j k' v1 v2 Hj. by apply (Hfresh (S j) k' v1 v2). }
      { intros j1 j2 k' v1 v2 H1 H2.
        assert (S j1 = S j2); [| lia]. by apply (Huniq _ _ k' v1 v2). }
      exists t'. split; [done |]. split; [done |]. split; [done |].
      split; [rewrite count_used_cons, Hu; lia |].
      intros k' v'. rewrite Hh'. split.
      * intros [H | [j H]]; [by left | right; by exists (S j)].
      * intros [H | [[| j] H]]; [by left | | right; by exists j].
        simpl in H. injection H as ->. done.
Qed.

Lemma vector_max_size_bounds : 2 ^ 61 ≤ vector_max_size < 2 ^ 62.
Proof. unfold vector_max_size. split; [by vm_compute | by vm_compute]. Qed.

Lemma grown_is_capacity n :
  is_capacity n → grown n ≤ vector_max_size → is_capacity (grown n).
Proof.
  intros Hn Hmax. unfold grown in *. right.
  destruct Hn as [-> | (e & He & ->)].
  - exists 3. split; [lia | done].
  - pose proof (pow2_bounds e He).
    replace (2 ^ e =? 0) with false in * by lia.
    exists (e + 1). rewrite Z.pow_add_r, Z.pow_1_r by lia.
    split; [| lia].
    destruct (Z_le_gt_dec (e + 1) 61); [lia |].
    assert (2 ^ 62 ≤ 2 ^ (e + 1)) by (apply Z.pow_le_mono_r; lia).
    rewrite Z.pow_add_r, Z.pow_1_r in * by lia.
    pose proof vector_max_size_bounds. lia.
Qed.

Lemma fresh_slots_wf n :
  is_capacity (Z.of_nat n) →
  wf (mkTable (replicate n Slot_empty) 0 0).
Proof.
  intros Hn.
  assert (∀ j k v, ¬ holds_at (mkTable (replicate n Slot_empty) 0 0) j k v) as Hno.
  { intros j k v H. unfold holds_at in H. simpl in H.
    apply lookup_replicate in H as [H _]. done. }
  constructor; simpl.
  - unfold capacity, vsize. simpl. by rewrite length_replicate.
  - by rewrite count_used_replicate.
  - pose proof (vsize_nonneg (replicate n Slot_empty)). unfold capacity. simpl. lia.
  - lia.
  - intros j k v H. by destruct (Hno j k v).
  - intros j1 j2 k v1 v2 H. by destruct (Hno j1 k v1).
Qed.

Lemma resize_fresh avail n :
  0 < n →
  resize avail [] n =
    if (n <=? avail) && (n <=? vector_max_size)
    then Some (replicate (Z.to_nat n) Slot_empty) else None.
Proof.
  intros Hn. unfold resize, vsize. cbn [length app].
  destruct (Z.leb_spec n (Z.of_nat 0)) as [H | _]; [simpl in H; lia |].
  destruct ((n <=? avail) && (n <=? vector_max_size)); [| done].
  by rewrite Nat.sub_0_r.
Qed.

Lemma grown_pos n : 0 ≤ n → 0 < grown n.
Proof. intros H. unfold grown. destruct (Z.eqb_spec n 0); lia. Qed.

Lemma rehash_new_size (t : hash_table) :
  wf t →
  (if vsize (slots t) =? 0 then 8 else wrap (vsize (slots t) * 2))
    = grown (capacity t).
Proof.
  intros Hwf. unfold grown. fold (capacity t).
  destruct (is_capacity_cases _ (wf_capacity _ Hwf)) as [Hn | [Hb _]].
  - by rewrite Hn.
  - replace (capacity t =? 0) with false by lia.
    rewrite wrap_small by lia. lia.
Qed.

(** A failed allocation leaves the table cleared. *)
Lemma rehash_throw avail (t : hash_table) :
  wf t →
  ¬ (grown (capacity t) ≤ avail ∧ grown (capacity t) ≤ vector_max_size) →
  rehash avail t = Throw (clear t).
Proof.
  intros Hwf Hfail. unfold rehash.
  rewrite (rehash_new_size t Hwf). simpl.
  rewrite resize_fresh by (apply grown_pos, vsize_nonneg).
  destruct (Z.leb_spec (grown (capacity t)) avail);
    destruct (Z.leb_spec (grown (capacity t)) vector_max_size); simpl; try done.
  destruct Hfail. done.
Qed.

(** With the new storage allocated, [rehash] grows the table and keeps
    its contents. *)
Lemma rehash_ok avail (t : hash_table) :
  wf t →
  grown (capacity t) ≤ avail → grown (capacity t) ≤ vector_max_size →
  ∃ t', rehash avail t = Ok t' ∧
        wf t' ∧
        capacity t' = grown (capacity t) ∧
        count t' = count t ∧
        4 * count t' ≤ 3 * capacity t' ∧
        (∀ k v, holds t' k v ↔ holds t k v).
Proof.
  intros Hwf Hav Hmax. unfold rehash.
  rewrite (rehash_new_size t Hwf). simpl.
  pose proof (grown_pos (capacity t) (vsize_nonneg _)) as Hpos.
  rewrite resize_fresh by done.
  replace (grown (capacity t) <=? avail) with true by lia.
  replace (grown (capacity t) <=? vector_max_size) with true by lia. simpl.
  set (t0 := mkTable (replicate (Z.to_nat (grown (capacity t))) Slot_empty) 0 0).
  assert (capacity t0 = grown (capacity t)) as Hcap0.
  { unfold capacity at 1, vsize. simpl. rewrite length_replicate. lia. }
  assert (wf t0) as Hwf0.
  { apply fresh_slots_wf. rewrite Z2Nat.id by lia.
    apply grown_is_capacity; [apply (wf_capacity _ Hwf) | done]. }
  pose proof (wf_load _ Hwf) as Hload.
  pose proof (wf_count _ Hwf) as Hcount.
  pose proof (count_used_bounds (slots t)) as Hcu. fold (capacity t) in Hcu.
  assert (4 * count t ≤ 3 * grown (capacity t)) as Hroom.
  { unfold grown.
    destruct (is_capacity_cases _ (wf_capacity _ Hwf)) as [Hn | [Hb _]].
    - rewrite Hn in *. simpl. lia.
    - replace (capacity t =? 0) with false by lia. lia. }
  destruct (reinsert_ok (slots t) t0) as (t' & Hr & Hwf' & Hcap' & Hc' & Hh').
  - done.
  - lia.
  - simpl. rewrite Hcap0. lia.
  - intros j k v v' _ [j' H]. unfold holds_at in H. simpl in H.
    apply lookup_replicate in H as [H _]. done.
  - intros j1 j2 k v1 v2 H1 H2. by apply (wf_unique _ Hwf j1 j2 k v1 v2).
  - exists t'. split; [done |]. split; [done |]. split; [lia |].
    simpl in Hc'. split; [lia |]. split; [lia |].
    intros k v. rewrite Hh'. split.
    + intros [[j H] | H]; [| done]. unfold holds_at in H. simpl in H.
      apply lookup_replicate in H as [H _]. done.
    + intros H. by right.
Qed.

(** ** [set] *)

(** Replacing the value of a used slot keeps the table well formed and
    changes the value of its key only. *)
Lemma write_value_wf (t : hash_table) j k v0 v :
  wf t → holds_at t j k v0 →
  let t' := mkTable (vset (slots t) (Z.of_nat j) (Slot_of k v))
                    (count t) (max_hash_offset t) in
  wf t' ∧
  (∀ k' v', holds t' k' v' ↔ (k' = k ∧ v' = v) ∨ (k' ≠ k ∧ holds t k' v')).
Proof.
  intros Hwf Hj t'.
  assert (slots t' = vset (slots t) (Z.of_nat j) (Slot_of k v)) as Hs by done.
  pose proof (holds_at_range t j k v0 Hj) as Hi.
  pose proof (capacity_vset t t' _ _ Hs) as Hcap.
  assert (∀ j' k' v', holds_at t' j' k' v' ↔
            (j' = j ∧ k' = k ∧ v' = v) ∨ (j' ≠ j ∧ holds_at t j' k' v')) as Hat.
  { intros j' k' v'. rewrite (holds_at_vset t t' _ _ j' k' v' Hs Hi), Nat2Z.id.
    split; (intros [[-> H] | H]; [left | by right]).
    - apply Slot_of_inj in H as [-> ->]. done.
    - destruct H as [-> ->]. done. }
  split.
  - constructor.
    + rewrite Hcap. apply (wf_capacity _ Hwf).
    + simpl. unfold vset. rewrite Nat2Z.id.
      rewrite (count_used_insert _ _ _ _ Hj). simpl.
      rewrite (wf_count _ Hwf). lia.
    + rewrite Hcap. apply (wf_load _ Hwf).
    + rewrite Hcap. apply (wf_max _ Hwf).
    + intros j' k' v' H. unfold displacement. rewrite Hcap.
      apply Hat in H as [(-> & -> & ->) | [Hne H]].
      * apply (wf_offset _ Hwf j k v0 Hj).
      * apply (wf_offset _ Hwf j' k' v' H).
    + intros j1 j2 k' v1' v2' H1 H2.
      apply Hat in H1 as [(-> & -> & ->) | [Hne1 H1]];
        apply Hat in H2 as [(-> & ? & ->) | [Hne2 H2]]; try done.
      * by apply (wf_unique _ Hwf j j2 k v0 v2').
      * subst k'. by apply (wf_unique _ Hwf j1 j k v1' v0).
      * by apply (wf_unique _ Hwf j1 j2 k' v1' v2').
  - intros k' v'. split.
    + intros [j' H]. apply Hat in H as [(-> & -> & ->) | [Hne H]]; [by left |].
      right. split; [| by exists j'].
      intros ->. by apply Hne, (wf_unique _ Hwf j' j k v' v0).
    + intros [[-> ->] | [Hne [j' H]]].
      * exists j. apply Hat. by left.
      * exists j'. apply Hat. right. split; [| done].
        intros ->. unfold holds_at in *. rewrite Hj in H.
        injection H as Hkk _. congruence.
Qed.

(** The key is there: its value is replaced in place. *)
Lemma set_existing avail (t : hash_table) k v v0 :
  wf t → holds t k v0 →
  ∃ i t', set avail t k v = Ok (i, t') ∧
          wf t' ∧
          capacity t' = capacity t ∧
          count t' = count t ∧
          max_hash_offset t' = max_hash_offset t ∧
          (∀ k' v', holds t' k' v' ↔
                    (k' = k ∧ v' = v) ∨ (k' ≠ k ∧ holds t k' v')).
Proof.
  intros Hwf Hk. unfold set.
  destruct (get_slot_spec t k Hwf) as [(j & v1 & Hj & ->) | [Hno _]];
    [| by destruct (Hno v0)].
  simpl. rewrite (vget_nat _ _ _ Hj). simpl. fold (Slot_of k v).
  destruct (write_value_wf t j k v1 v Hwf Hj) as [Hwf' Hh].
  eexists _, _. split; [done |]. split; [done |].
  split; [by apply (capacity_vset t _ (Z.of_nat j) (Slot_of k v)) |]. done.
Qed.

(** Replacing the payload of a free slot keeps the table well formed and
    changes nothing of what it holds. *)
Lemma write_free_wf (t : hash_table) j s s' :
  wf t → slots t !! j = Some s → used s = false → used s' = false →
  let t' := mkTable (vset (slots t) (Z.of_nat j) s')
                    (count t) (max_hash_offset t) in
  wf t' ∧ (∀ j' k v, holds_at t' j' k v ↔ holds_at t j' k v).
Proof.
  intros Hwf Hj Hu Hu' t'.
  assert (slots t' = vset (slots t) (Z.of_nat j) s') as Hs by done.
  assert (0 ≤ Z.of_nat j < capacity t) as Hi.
  { apply lookup_lt_Some in Hj. unfold capacity, vsize. lia. }
  pose proof (capacity_vset t t' _ _ Hs) as Hcap.
  assert (∀ j' k v, holds_at t' j' k v ↔ holds_at t j' k v) as Hat.
  { intros j' k v. rewrite (holds_at_vset t t' _ _ j' k v Hs Hi), Nat2Z.id.
    split.
    - intros [[_ ->] | [_ H]]; [done | done].
    - intros H. right. split; [| done].
      intros ->. unfold holds_at in H. rewrite Hj in H.
      injection H as ->. done. }
  split; [| done]. constructor.
  - rewrite Hcap. apply (wf_capacity _ Hwf).
  - simpl. unfold vset. rewrite Nat2Z.id.
    rewrite (count_used_insert _ _ _ _ Hj), Hu, Hu'.
    rewrite (wf_count _ Hwf). lia.
  - rewrite Hcap. apply (wf_load _ Hwf).
  - rewrite Hcap. apply (wf_max _ Hwf).
  - intros j' k v H%Hat. unfold displacement. rewrite Hcap.
    apply (wf_offset _ Hwf j' k v H).
  - intros j1 j2 k v1 v2 H1%Hat H2%Hat.
    by apply (wf_unique _ Hwf j1 j2 k v1 v2).
Qed.

(** A write through a pointer or an iterator keeps the table well formed,
    whether the slot written to is used or free. *)
Lemma store_wf (t t' : hash_table) i v :
  wf t → store t i v = Ok t' → wf t'.
Proof.
  intros Hwf. unfold store.
  destruct (vget (slots t) i) as [s | | |] eqn:Hs; simpl; try done.
  apply vget_Ok in Hs as [Hi Hs].
  intros [= <-]. destruct (used s) eqn:Hu.
  - assert (holds_at t (Z.to_nat i) (key (kv s)) (value (kv s))) as Hj.
    { unfold holds_at. rewrite Hs. f_equal. by apply used_slot_eta. }
    destruct (write_value_wf t _ _ _ v Hwf Hj) as [Hwf' _].
    by rewrite Z2Nat.id in Hwf' by lia.
  - destruct (write_free_wf t _ s (mkSlot (mkKeyValue (key (kv s)) v) false)
                Hwf Hs Hu eq_refl) as [Hwf' _].
    by rewrite Z2Nat.id in Hwf' by lia.
Qed.

(** The key is new and the table has room, or gets it: the pair is added. *)
Lemma set_new avail (t : hash_table) k v :
  wf t → (∀ v', ¬ holds t k v') →
  should_rehash t = false
  ∨ (grown (capacity t) ≤ avail ∧ grown (capacity t) ≤ vector_max_size) →
  ∃ i t', set avail t k v = Ok (i, t') ∧
          wf t' ∧
          capacity t' = (if should_rehash t then grown (capacity t) else capacity t) ∧
          count t' = count t + 1 ∧
          4 * count t' ≤ 3 * capacity t' + 4 ∧
          (∀ k' v', holds t' k' v' ↔ (k' = k ∧ v' = v) ∨ holds t k' v').
Proof.
  intros Hwf Hno Hroom. unfold set.
  destruct (get_slot_spec t k Hwf) as [(j & v1 & Hj & _) | [_ ->]].
  { destruct (Hno v1). by exists j. }
  simpl. destruct (should_rehash t) eqn:Hsr.
  - destruct Hroom as [? | [Hav Hmax]]; [done |].
    destruct (rehash_ok avail t Hwf Hav Hmax)
      as (t1 & -> & Hwf1 & Hcap1 & Hc1 & Hload1 & Hh1).
    simpl.
    destruct (insert_ok t1 k v Hwf1) as (i & t' & Hr & Hwf' & Hcap' & Hc' & _ & Hh').
    { apply should_rehash_false_intro; [done | | done].
      rewrite Hcap1. pose proof (grown_pos (capacity t) (vsize_nonneg _)). lia. }
    { intros v' Hv'. apply Hh1 in Hv'. by destruct (Hno v'). }
    exists i, t'. split; [done |]. split; [done |]. split; [lia |].
    split; [lia |]. split; [lia |].
    intros k' v'. rewrite Hh'. by rewrite Hh1.
  - simpl.
    destruct (insert_ok t k v Hwf Hsr Hno) as (i & t' & Hr & Hwf' & Hcap' & Hc' & _ & Hh').
    destruct (should_rehash_false t Hwf Hsr) as (e & He & Hn & Hload).
    exists i, t'. split; [done |]. split; [done |]. split; [done |].
    split; [done |]. split; [lia | done].
Qed.

(** The key is new, the table must grow and the allocation fails: the
    exception propagates and the table is left cleared. *)
Lemma set_throw avail (t : hash_table) k v :
  wf t → (∀ v', ¬ holds t k v') →
  should_rehash t = true →
  ¬ (grown (capacity t) ≤ avail ∧ grown (capacity t) ≤ vector_max_size) →
  set avail t k v = Throw (clear t).
Proof.
  intros Hwf Hno Hsr Hfail. unfold set.
  destruct (get_slot_spec t k Hwf) as [(j & v1 & Hj & _) | [_ ->]].
  { destruct (Hno v1). by exists j. }
  simpl. rewrite Hsr. by rewrite (rehash_throw avail t Hwf Hfail).
Qed.

Lemma holds_dec (t : hash_table) k :
  wf t → (∃ v, holds t k v) ∨ (∀ v, ¬ holds t k v).
Proof.
  intros Hwf. destruct (get_spec t k Hwf) as [(v & Hv & _) | [Hno _]]; eauto.
Qed.

Lemma Key_eq_dec (a b : Key) : a = b ∨ a ≠ b.
Proof.
  destruct (Equal a b) eqn:E.
  - left. by apply Equal_spec.
  - right. intros H%Equal_spec. congruence.
Qed.

Lemma clear_wf (t : hash_table) : wf (clear t).
Proof.
  replace (clear t) with (mkTable (replicate 0 Slot_empty) 0 0) by done.
  apply fresh_slots_wf. by left.
Qed.

(** Whatever the allocator grants, [set] returns or throws, and leaves a
    well-formed table. *)
Lemma set_outcome avail (t : hash_table) k v :
  wf t →
  (∃ i t', set avail t k v = Ok (i, t') ∧ wf t' ∧
           (∀ k' v', holds t' k' v' ↔
                     (k' = k ∧ v' = v) ∨ (k' ≠ k ∧ holds t k' v')))
  ∨ (set avail t k v = Throw (clear t) ∧ should_rehash t = true ∧
     (∀ v', ¬ holds t k v')).
Proof.
  intros Hwf. destruct (holds_dec t k Hwf) as [[v0 Hv0] | Hno].
  - left. destruct (set_existing avail t k v v0 Hwf Hv0)
      as (i & t' & Hr & Hwf' & _ & _ & _ & Hh).
    by exists i, t'.
  - assert (Decision (grown (capacity t) ≤ avail ∧
                      grown (capacity t) ≤ vector_max_size)) as [Hroom | Hfail]
      by apply _.
    + left. destruct (set_new avail t k v Hwf Hno) as (i & t' & Hr & Hwf' & _ & _ & _ & Hh).
      { by right. }
      exists i, t'. split; [done |]. split; [done |].
      intros k' v'. rewrite Hh. split.
      * intros [H | H]; [by left | right]. split; [| done].
        intros ->. by destruct (Hno v').
      * intros [H | [_ H]]; [by left | by right].
    + destruct (should_rehash t) eqn:Hsr.
      * right. by rewrite (set_throw avail t k v Hwf Hno Hsr Hfail).
      * left. destruct (set_new avail t k v Hwf Hno) as (i & t' & Hr & Hwf' & _ & _ & _ & Hh).
        { by left. }
        exists i, t'. split; [done |]. split; [done |].
        intros k' v'. rewrite Hh. split.
        -- intros [H | H]; [by left | right]. split; [| done].
           intros ->. by destruct (Hno v').
        -- intros [H | [_ H]]; [by left | by right].
Qed.

(** ** [remove] *)

Lemma wf_count_small (t : hash_table) : wf t → 0 ≤ count t ≤ 2 ^ 61.
Proof.
  intros Hwf. rewrite (wf_count _ Hwf).
  pose proof (count_used_bounds (slots t)) as H. fold (capacity t) in H.
  destruct (is_capacity_cases _ (wf_capacity _ Hwf)) as [Hn | [Hn _]]; lia.
Qed.

(** The key is there: its slot is freed where it stands. *)
Lemma remove_existing (t : hash_table) k v0 :
  wf t → holds t k v0 →
  ∃ j, holds_at t j k v0 ∧
       remove t k = Ok (mkTable (vset (slots t) (Z.of_nat j) Slot_empty)
                                (count t - 1) (max_hash_offset t)).
Proof.
  intros Hwf Hk. unfold remove.
  destruct (get_slot_spec t k Hwf) as [(j & v1 & Hj & ->) | [Hno _]];
    [| by destruct (Hno v0)].
  assert (holds t k v1) as Hv1 by (by exists j).
  pose proof (holds_functional t k v0 v1 Hwf Hk Hv1) as <-.
  exists j. split; [done |]. simpl.
  pose proof (holds_at_range t j k v0 Hj) as Hi.
  replace (vget _ _) with (@Ok Key Value _ Slot_empty).
  2:{ symmetry. apply vget_Ok. split; [lia |]. unfold vset.
      apply list_lookup_insert_eq. unfold capacity, vsize in *. lia. }
  simpl. do 2 f_equal. apply wrap_small.
  pose proof (wf_count_small t Hwf) as Hc.
  pose proof (count_used_insert (slots t) j _ Slot_empty Hj) as Hcu.
  pose proof (count_used_bounds (<[j:=Slot_empty]> (slots t))).
  rewrite (wf_count _ Hwf) in *. simpl in Hcu. lia.
Qed.

Lemma remove_absent (t : hash_table) k :
  wf t → (∀ v, ¬ holds t k v) → remove t k = Ok t.
Proof.
  intros Hwf Hno. unfold remove.
  destruct (get_slot_spec t k Hwf) as [(j & v1 & Hj & _) | [_ ->]]; [| done].
  destruct (Hno v1). by exists j.
Qed.

(** [remove] returns, keeps the table well formed, and takes away the key
    and nothing else; the capacity and [max_hash_offset] stay. *)
Lemma remove_ok (t : hash_table) k :
  wf t →
  ∃ t', remove t k = Ok t' ∧
        wf t' ∧
        capacity t' = capacity t ∧
        max_hash_offset t' = max_hash_offset t ∧
        count t' ≤ count t ∧
        (∀ k' v', holds t' k' v' ↔ k' ≠ k ∧ holds t k' v').
Proof.
  intros Hwf. destruct (holds_dec t k Hwf) as [[v0 Hv0] | Hno].
  - destruct (remove_existing t k v0 Hwf Hv0) as (j & Hj & Hr).
    set (t' := mkTable _ _ _) in Hr.
    assert (slots t' = vset (slots t) (Z.of_nat j) Slot_empty) as Hs by done.
    pose proof (holds_at_range t j k v0 Hj) as Hi.
    pose proof (capacity_vset t t' _ _ Hs) as Hcap.
    assert (∀ j' k' v', holds_at t' j' k' v' ↔ j' ≠ j ∧ holds_at t j' k' v') as Hat.
    { intros j' k' v'. rewrite (holds_at_vset t t' _ _ j' k' v' Hs Hi), Nat2Z.id.
      split; [intros [[_ H] | H]; done | intros H; by right]. }
    exists t'. split; [done |]. split; [| split; [done |]].
    + constructor.
      * rewrite Hcap. apply (wf_capacity _ Hwf).
      * simpl. unfold vset. rewrite Nat2Z.id.
        rewrite (count_used_insert _ _ _ _ Hj). simpl.
        rewrite (wf_count _ Hwf). lia.
      * rewrite Hcap. pose proof (wf_load _ Hwf). simpl. lia.
      * rewrite Hcap. apply (wf_max _ Hwf).
      * intros j' k' v' H. unfold displacement. rewrite Hcap.
        apply Hat in H as [_ H]. apply (wf_offset _ Hwf j' k' v' H).
      * intros j1 j2 k' v1 v2 H1 H2.
        apply Hat in H1 as [_ H1]. apply Hat in H2 as [_ H2].
        by apply (wf_unique _ Hwf j1 j2 k' v1 v2).
    + split; [done |]. split; [simpl; lia |].
      intros k' v'. split.
      * intros [j' H]. apply Hat in H as [Hne H]. split; [| by exists j'].
        intros ->. by apply Hne, (wf_unique _ Hwf j' j k v' v0).
      * intros [Hne [j' H]]. exists j'. apply Hat. split; [| done].
        intros ->. unfold holds_at in *. rewrite Hj in H.
        injection H as Hkk _. congruence.
  - exists t. rewrite (remove_absent t k Hwf Hno).
    split; [done |]. split; [done |]. split; [done |]. split; [done |].
    split; [lia |].
    intros k' v'. split; [| by intros [_ H]].
    intros H. split; [| done]. intros ->. by destruct (Hno v').
Qed.

(** ** The other public member functions *)

Lemma subscript_outcome avail (t : hash_table) k :
  wf t →
  (∃ i t', subscript avail t k = Ok (i, t') ∧ wf t')
  ∨ subscript avail t k = Throw (clear t).
Proof.
  intros Hwf. unfold subscript.
  destruct (get_slot_spec t k Hwf) as [(j & v1 & Hj & ->) | [Hno ->]]; simpl.
  - left. by exists (Z.of_nat j), t.
  - destruct (set_outcome avail t k default_value Hwf)
      as [(i & t' & Hr & Hwf' & _) | [Hr _]].
    + left. by exists i, t'.
    + by right.
Qed.

Lemma vget_cases (v : list Slot) i :
  (∃ s, vget v i = Ok s) ∨ vget v i = Abort.
Proof.
  unfold vget. destruct ((0 <=? i) && (i <? vsize v)); [| by right].
  destruct (v !! Z.to_nat i); eauto.
Qed.

Lemma erase_outcome (t : hash_table) it t' :
  wf t → table_after' (erase t it) = Some t' → wf t'.
Proof.
  intros Hwf. unfold erase, deref, assert_.
  destruct (it <? vsize (slots t)); simpl; [| done].
  destruct (vget_cases (slots t) it) as [[s ->] | ->]; simpl; [| done].
  destruct (remove_ok t (key (kv s)) Hwf) as (t1 & -> & Hwf1 & _).
  simpl. by intros [= <-].
Qed.

Lemma new_wf : wf (@hash_table_new Key Value).
Proof. apply (clear_wf hash_table_new). Qed.

Lemma rebuild_wf (t : hash_table) :
  wf t → wf (mkTable (slots t) (count t) (max_hash_offset t)).
Proof. by destruct t. Qed.

(** ** [hash_table(std::size_t capacity)] *)

(** The doubling loop returns: a power of two that covers
    [min_num_slots], reached from [2 ^ e] without wrapping. *)
Lemma grow_cap_spec min_num_slots :
  min_num_slots < 2 ^ 63 →
  ∀ fuel e,
    3 ≤ e ≤ 63 → 64 ≤ e + Z.of_nat fuel →
    ∃ e', e ≤ e' ≤ 63 ∧
          @grow_cap Key Value fuel (2 ^ e) min_num_slots = Ok (2 ^ e') ∧
          min_num_slots ≤ 2 ^ e' ∧
          (e < e' → 2 ^ (e' - 1) < min_num_slots).
Proof.
  intros Hmin. induction fuel as [| fuel IH]; intros e He Hfuel; [lia |].
  simpl. destruct (Z.ltb_spec (2 ^ e) min_num_slots) as [Hlt | Hge].
  - assert (e < 63) as He'.
    { destruct (Z_lt_ge_dec e 63); [done |].
      assert (2 ^ 63 ≤ 2 ^ e) by (apply Z.pow_le_mono_r; lia). lia. }
    assert (wrap (2 ^ e * 2) = 2 ^ (e + 1)) as ->.
    { rewrite Z.pow_add_r, Z.pow_1_r by lia. apply wrap_small.
      assert (2 ^ e ≤ 2 ^ 62) by (apply Z.pow_le_mono_r; lia).
      assert (0 < 2 ^ e) by (apply Z.pow_pos_nonneg; lia). lia. }
    destruct (IH (e + 1)) as (e' & He1 & Hr & Hcover & Hmin'); [lia | lia |].
    exists e'. split; [lia |]. split; [done |]. split; [done |].
    intros _. destruct (decide (e' = e + 1)) as [-> | Hne].
    + by replace (e + 1 - 1) with e by lia.
    + apply Hmin'. lia.
  - exists e. split; [lia |]. split; [done |]. split; [done | lia].
Qed.

Lemma min_num_slots_small n : wrap (wrap (n * 4) + 2) / 3 < 2 ^ 63.
Proof.
  assert (0 ≤ wrap (wrap (n * 4) + 2) < 2 ^ 64) as H.
  { unfold wrap, size_t_bits. apply Z.mod_pos_bound. lia. }
  apply Z.div_lt_upper_bound; lia.
Qed.

(** The pre-sizing constructor returns a well-formed empty table whose
    capacity is a power of two, 8 or more, unless the allocation fails. *)
Lemma with_capacity_ok avail n (t : hash_table) :
  hash_table_with_capacity avail n = Ok t →
  wf t ∧ count t = 0 ∧ max_hash_offset t = 0 ∧
  ∃ e, 3 ≤ e ≤ 61 ∧ capacity t = 2 ^ e ∧
       wrap (wrap (n * 4) + 2) / 3 ≤ 2 ^ e ∧
       (3 < e → 2 ^ (e - 1) < wrap (wrap (n * 4) + 2) / 3).
Proof.
  unfold hash_table_with_capacity.
  destruct (grow_cap_spec _ (min_num_slots_small n) 64 3)
    as (e & He & Hr & Hcover & Hmin); [lia | lia |].
  change (2 ^ 3) with 8 in Hr. rewrite Hr. simpl.
  assert (0 < 2 ^ e) as Hpos by (apply Z.pow_pos_nonneg; lia).
  rewrite resize_fresh by done.
  destruct (Z.leb_spec (2 ^ e) avail); simpl; [| done].
  destruct (Z.leb_spec (2 ^ e) vector_max_size) as [Hmax |]; simpl; [| done].
  intros [= <-]. simpl.
  assert (e ≤ 61) as He'.
  { destruct (Z_le_gt_dec e 61); [done |].
    assert (2 ^ 62 ≤ 2 ^ e) by (apply Z.pow_le_mono_r; lia).
    pose proof vector_max_size_bounds. lia. }
  split; [| split; [done | split; [done |]]].
  - apply fresh_slots_wf. rewrite Z2Nat.id by lia. right. exists e. lia.
  - exists e. split; [lia |]. split; [| done].
    unfold capacity, vsize. simpl. rewrite length_replicate. lia.
Qed.

(** ** Every reachable table is well formed *)

Lemma reachable_wf (t : hash_table) : reachable t → wf t.
Proof.
  induction 1 as [| avail n t Hn Hr | t _ IH | t _ IH | t1 t2 _ IH1 _ IH2
                  | t1 t2 _ IH1 _ IH2 | t _ IH | avail t k v t' _ IH Hr
                  | avail t k t' _ IH Hr | t i v t' _ IH Hr | t k t' _ IH Hr
                  | t it t' _ IH Hr].
  - apply new_wf.
  - by destruct (with_capacity_ok avail n t Hr).
  - simpl. by apply rebuild_wf.
  - simpl. apply clear_wf.
  - simpl. by apply rebuild_wf.
  - simpl. by apply rebuild_wf.
  - apply clear_wf.
  - destruct (set_outcome avail t k v IH) as [(i & t1 & Hr1 & Hwf1 & _) | [Hr1 _]];
      rewrite Hr1 in Hr; simpl in Hr; injection Hr as <-; [done | apply clear_wf].
  - destruct (subscript_outcome avail t k IH) as [(i & t1 & Hr1 & Hwf1) | Hr1];
      rewrite Hr1 in Hr; simpl in Hr; injection Hr as <-; [done | apply clear_wf].
  - by apply (store_wf t t' i v).
  - destruct (remove_ok t k IH) as (t1 & Hr1 & Hwf1 & _).
    rewrite Hr1 in Hr. simpl in Hr. by injection Hr as <-.
  - by apply (erase_outcome t it t').
Qed.

(** ** Iteration *)

(** From slot [p] on, skipping to the next used slot and walking to
    [end()] yields the pairs of the used slots from [p] on. *)
Lemma iterate_from (t : hash_table) :
  vsize (slots t) < 2 ^ 64 →
  ∀ n p fuel_skip fuel_it,
    (p + n = length (slots t))%nat →
    (n ≤ fuel_skip)%nat →
    (length (List.filter used (drop p (slots t))) ≤ fuel_it)%nat →
    bind (skip_unused t fuel_skip (Z.of_nat p)) (iterate t fuel_it)
      = Ok (List.map kv (List.filter used (drop p (slots t)))).
Proof.
  intros Hsize. unfold vsize in Hsize.
  induction n as [| n IH]; intros p fuel_skip fuel_it Hp Hskip Hit.
  - rewrite drop_ge by lia. simpl.
    assert (skip_unused t fuel_skip (Z.of_nat p) = Ok (Z.of_nat p)) as ->.
    { destruct fuel_skip; simpl; unfold vsize;
        by replace (Z.of_nat p <? Z.of_nat (length (slots t))) with false by lia. }
    simpl. destruct fuel_it; simpl; unfold end_, vsize;
      by replace (Z.of_nat p =? Z.of_nat (length (slots t))) with true by lia.
  - destruct (lookup_lt_is_Some_2 (slots t) p) as [s Hs]; [lia |].
    rewrite (drop_S _ _ _ Hs) in *. simpl in Hit |- *.
    pose proof (vget_nat _ _ _ Hs) as Hget.
    assert (wrap (Z.of_nat p + 1) = Z.of_nat (S p)) as Hnext.
    { rewrite wrap_small by lia. lia. }
    destruct fuel_skip as [| fuel_skip]; [lia |].
    simpl. unfold vsize at 1.
    replace (Z.of_nat p <? Z.of_nat (length (slots t))) with true by lia.
    rewrite Hget. simpl. destruct (used s) eqn:Hu; simpl.
    + simpl in Hit. destruct fuel_it as [| fuel_it]; [lia |].
      simpl. unfold end_, vsize at 1.
      replace (Z.of_nat p =? Z.of_nat (length (slots t))) with false by lia.
      unfold deref, incr, vsize.
      replace (Z.of_nat p <? Z.of_nat (length (slots t))) with true by lia.
      simpl. rewrite Hget. simpl. rewrite Hnext.
      specialize (IH (S p) (length (slots t)) fuel_it ltac:(lia) ltac:(lia) ltac:(lia)).
      destruct (skip_unused t (length (slots t)) (Z.of_nat (S p))) as [it | | |];
        simpl in IH |- *; try done.
      by rewrite IH.
    + rewrite Hnext. apply IH; [lia | lia | done].
Qed.

(** A range-for over the table yields the pairs of its used slots. *)
Lemma items_contents (t : hash_table) :
  wf t → items t = Ok (contents t).
Proof.
  intros Hwf. unfold items, begin_, contents.
  pose proof (iterate_from t) as H.
  specialize (H ltac:(fold (capacity t);
    destruct (is_capacity_cases _ (wf_capacity _ Hwf)) as [Hn | [Hn _]]; lia)).
  specialize (H (length (slots t)) 0%nat (length (slots t)) (length (slots t))).
  rewrite drop_0 in H. apply H; [lia | lia |].
  apply List.filter_length_le.
Qed.

Lemma elem_of_contents (t : hash_table) k v :
  mkKeyValue k v ∈ contents t ↔ holds t k v.
Proof.
  unfold contents. rewrite list_elem_of_In, in_map_iff. split.
  - intros (s & Hkv & Hin). apply filter_In in Hin as [Hin Hu].
    apply list_elem_of_In, list_elem_of_lookup in Hin as [j Hj].
    exists j. unfold holds_at. rewrite Hj. f_equal.
    destruct s as [kv' u]. simpl in *. by subst.
  - intros [j Hj]. exists (Slot_of k v). split; [done |].
    apply filter_In. split; [| done].
    apply list_elem_of_In, list_elem_of_lookup. by exists j.
Qed.

Lemma contents_NoDup (v : list Slot) :
  (∀ j1 j2 k v1 v2, v !! j1 = Some (Slot_of k v1) →
                    v !! j2 = Some (Slot_of k v2) → j1 = j2) →
  NoDup (List.map key (List.map kv (List.filter used v))).
Proof.
  induction v as [| s v IH]; intros Huniq; simpl; [constructor |].
  assert (NoDup (List.map key (List.map kv (List.filter used v)))) as Hrest.
  { apply IH. intros j1 j2 k v1 v2 H1 H2.
    assert (S j1 = S j2); [| lia]. by apply (Huniq _ _ k v1 v2). }
  destruct (used s) eqn:Hu; [| done].
  simpl. apply NoDup_cons. split; [| done].
  rewrite list_elem_of_In, in_map_iff. intros (x & Hk & Hin).
  apply in_map_iff in Hin as (s' & <- & Hin).
  apply filter_In in Hin as [Hin Hu'].
  apply list_elem_of_In, list_elem_of_lookup in Hin as [j Hj].
  assert (S j = 0%nat); [| done].
  apply (Huniq (S j) 0%nat (key (kv s)) (value (kv s')) (value (kv s))); simpl.
  - rewrite Hj. f_equal. rewrite <- Hk. by apply used_slot_eta.
  - f_equal. by apply used_slot_eta.
Qed.

(** ** Keys that collide: a packed chain *)

Lemma used_not_free (t : hash_table) i : used_at t i → free_at t i → False.
Proof. intros (s & Hs & Hu) (s' & Hs' & Hu'). congruence. Qed.

Lemma count_zero_free (t : hash_table) i :
  wf t → count t = 0 → 0 ≤ i < capacity t → free_at t i.
Proof.
  intros Hwf Hc Hi. unfold capacity, vsize in Hi.
  destruct (lookup_lt_is_Some_2 (slots t) (Z.to_nat i)) as [s Hs]; [lia |].
  exists s. split; [done |]. destruct (used s) eqn:Hu; [| done].
  rewrite (wf_count _ Hwf) in Hc. unfold count_used in Hc.
  assert (In s (List.filter used (slots t))) as Hin.
  { apply filter_In. split; [| done].
    apply list_elem_of_In, list_elem_of_lookup. eauto. }
  destruct (List.filter used (slots t)); [done | simpl in Hc; lia].
Qed.

Lemma ring_inj h d1 d2 n :
  0 ≤ d1 < n → 0 ≤ d2 < n → (h + d1) mod n = (h + d2) mod n → d1 = d2.
Proof.
  intros H1 H2 H.
  rewrite <- (ring_offset h d1 n H1), <- (ring_offset h d2 n H2). by rewrite H.
Qed.

(** The walk of [insert_nonexistent_norehash] is determined by the slots
    it passes: it ends at offset [d] when the slot there is free and the
    ones before are used. *)
Lemma insert_at (t : hash_table) k v d :
  wf t → should_rehash t = false → (∀ v', ¬ holds t k v') →
  0 ≤ d < capacity t →
  free_at t ((Hash k + d) mod capacity t) →
  (∀ d', 0 ≤ d' < d → used_at t ((Hash k + d') mod capacity t)) →
  insert_nonexistent_norehash t k v =
    Ok ((Hash k + d) mod capacity t,
        mkTable (vset (slots t) ((Hash k + d) mod capacity t) (Slot_of k v))
                (count t + 1) (Z.max (max_hash_offset t) d)).
Proof.
  intros Hwf Hsr Hno Hd Hfree Hused.
  destruct (insert_spec t k v Hwf Hsr Hno) as (d0 & Hd0 & Hr & Hf0 & Hu0).
  assert (d0 = d) as ->; [| done].
  destruct (Z.lt_trichotomy d0 d) as [Hlt | [-> | Hgt]]; [| done |].
  - destruct (used_not_free t _ (Hused d0 ltac:(lia)) Hf0).
  - destruct (used_not_free t _ (Hu0 d ltac:(lia)) Hfree).
Qed.

Lemma used_at_vset (t t' : hash_table) i s j :
  slots t' = vset (slots t) i s → 0 ≤ i < capacity t → 0 ≤ j →
  used_at t' j ↔ (j = i ∧ used s = true) ∨ (j ≠ i ∧ used_at t j).
Proof.
  intros Hs Hi Hj. unfold used_at, vset, capacity, vsize in *. rewrite Hs.
  destruct (decide (j = i)) as [-> | Hne].
  - rewrite list_lookup_insert_eq by lia. split.
    + intros (s' & [= <-] & Hu). by left.
    + intros [[_ Hu] | [? _]]; [by exists s | done].
  - rewrite list_lookup_insert_ne by lia. split.
    + intros H. by right.
    + intros [[? _] | [_ H]]; done.
Qed.

Lemma free_at_vset (t t' : hash_table) i s j :
  slots t' = vset (slots t) i s → 0 ≤ i < capacity t → 0 ≤ j →
  free_at t' j ↔ (j = i ∧ used s = false) ∨ (j ≠ i ∧ free_at t j).
Proof.
  intros Hs Hi Hj. unfold free_at, vset, capacity, vsize in *. rewrite Hs.
  destruct (decide (j = i)) as [-> | Hne].
  - rewrite list_lookup_insert_eq by lia. split.
    + intros (s' & [= <-] & Hu). by left.
    + intros [[_ Hu] | [? _]]; [by exists s | done].
  - rewrite list_lookup_insert_ne by lia. split.
    + intros H. by right.
    + intros [[? _] | [_ H]]; done.
Qed.

(** Into a packed chain, a colliding key goes right behind the chain. *)
Lemma insert_packed (t : hash_table) k v :
  wf t → should_rehash t = false → (∀ v', ¬ holds t k v') →
  packed (Hash k) t →
  let i := (Hash k + count t) mod capacity t in
  let t' := mkTable (vset (slots t) i (Slot_of k v)) (count t + 1)
                    (Z.max (max_hash_offset t) (count t)) in
  insert_nonexistent_norehash t k v = Ok (i, t') ∧ packed (Hash k) t'.
Proof.
  intros Hwf Hsr Hno [Hused Hfree] i t'.
  destruct (should_rehash_false t Hwf Hsr) as (e & He & Hn & Hload).
  pose proof (pow2_bounds e He) as Hb. rewrite <- Hn in Hb.
  pose proof (wf_count_small t Hwf) as Hc.
  assert (0 ≤ count t < capacity t) as Hd by lia.
  split.
  - apply insert_at; try done. apply Hfree. lia.
  - assert (slots t' = vset (slots t) i (Slot_of k v)) as Hs by done.
    assert (0 ≤ i < capacity t) as Hi by (apply ring_range; lia).
    pose proof (capacity_vset t t' i _ Hs) as Hcap.
    unfold packed. rewrite Hcap. simpl. split; intros d Hd'.
    + apply (used_at_vset t t' i _ _ Hs Hi); [apply ring_range; lia |].
      destruct (decide (d = count t)) as [-> | Hne]; [by left | right].
      split; [| apply Hused; lia].
      intros Heq. apply ring_inj in Heq; lia.
    + apply (free_at_vset t t' i _ _ Hs Hi); [apply ring_range; lia |].
      right. split; [| apply Hfree; lia].
      intros Heq. apply ring_inj in Heq; lia.
Qed.

Lemma set_new_unfold avail (t : hash_table) k v :
  wf t → (∀ v', ¬ holds t k v') →
  set avail t k v =
    bind (if should_rehash t then rehash avail t else Ok t)
         (λ t, insert_nonexistent_norehash t k v).
Proof.
  intros Hwf Hno. unfold set.
  destruct (get_slot_spec t k Hwf) as [(j & v1 & Hj & _) | [_ ->]]; [| done].
  destruct (Hno v1). by exists j.
Qed.

(** What a colliding key finds on a packed chain with room, and what it
    leaves. *)
Lemma insert_packed_full (t : hash_table) k v :
  wf t → should_rehash t = false → (∀ v', ¬ holds t k v') →
  packed (Hash k) t →
  ∃ t', insert_nonexistent_norehash t k v
          = Ok ((Hash k + count t) mod capacity t, t') ∧
        packed (Hash k) t' ∧
        wf t' ∧
        capacity t' = capacity t ∧
        count t' = count t + 1 ∧
        max_hash_offset t' = Z.max (max_hash_offset t) (count t) ∧
        holds_at t' (Z.to_nat ((Hash k + count t) mod capacity t)) k v ∧
        (∀ j k' v', j ≠ Z.to_nat ((Hash k + count t) mod capacity t) →
                    holds_at t' j k' v' ↔ holds_at t j k' v') ∧
        (∀ k' v', holds t' k' v' ↔ (k' = k ∧ v' = v) ∨ holds t k' v').
Proof.
  intros Hwf Hsr Hno Hp.
  destruct (insert_packed t k v Hwf Hsr Hno Hp) as [Hr Hp'].
  set (i := (Hash k + count t) mod capacity t) in *.
  set (t' := mkTable _ _ _) in *.
  destruct (insert_ok t k v Hwf Hsr Hno) as (i0 & t0 & Hr0 & Hwf' & Hcap & _ & _ & Hh).
  rewrite Hr in Hr0. injection Hr0 as <- <-.
  destruct (should_rehash_false t Hwf Hsr) as (e & He & Hn & Hload).
  pose proof (pow2_bounds e He) as Hb. rewrite <- Hn in Hb.
  assert (0 ≤ i < capacity t) as Hi by (apply ring_range; lia).
  assert (slots t' = vset (slots t) i (Slot_of k v)) as Hs by done.
  exists t'. split; [done |]. split; [done |]. split; [done |].
  split; [done |]. split; [done |]. split; [done |].
  split; [| split; [| done]].
  - apply (holds_at_vset t t' i _ _ k v Hs Hi). by left.
  - intros j k' v' Hne. rewrite (holds_at_vset t t' i _ j k' v' Hs Hi).
    split; [intros [[? _] | [_ H]]; done | intros H; by right].
Qed.

Lemma set_no_rehash avail (t : hash_table) k v :
  wf t → (∀ v', ¬ holds t k v') → should_rehash t = false →
  set avail t k v = insert_nonexistent_norehash t k v.
Proof.
  intros Hwf Hno Hsr. by rewrite (set_new_unfold avail t k v Hwf Hno), Hsr.
Qed.

(** [remove] frees the slot of the key and touches no other slot. *)
Lemma remove_at (t : hash_table) j k v :
  wf t → holds_at t j k v →
  ∃ t', remove t k = Ok t' ∧
        wf t' ∧
        capacity t' = capacity t ∧
        count t' = count t - 1 ∧
        max_hash_offset t' = max_hash_offset t ∧
        free_at t' (Z.of_nat j) ∧
        (∀ j' k' v', j' ≠ j → holds_at t' j' k' v' ↔ holds_at t j' k' v').
Proof.
  intros Hwf Hj.
  destruct (remove_existing t k v Hwf) as (j0 & Hj0 & Hr); [by exists j |].
  pose proof (wf_unique _ Hwf _ _ _ _ _ Hj Hj0) as <-.
  destruct (remove_ok t k Hwf) as (t1 & Hr1 & Hwf1 & Hcap1 & _).
  set (t' := mkTable _ _ _) in *.
  rewrite Hr in Hr1. injection Hr1 as <-.
  pose proof (holds_at_range t j k v Hj) as Hi.
  assert (slots t' = vset (slots t) (Z.of_nat j) Slot_empty) as Hs by done.
  exists t'. split; [done |]. split; [done |]. split; [done |].
  split; [done |]. split; [done |]. split.
  - apply (free_at_vset t t' _ _ _ Hs Hi); [lia |]. by left.
  - intros j' k' v' Hne.
    rewrite (holds_at_vset t t' _ _ j' k' v' Hs Hi), Nat2Z.id.
    split; [intros [[? _] | [_ H]]; done | intros H; by right].
Qed.

Lemma count_zero_no_holds (t : hash_table) k v :
  wf t → count t = 0 → ¬ holds t k v.
Proof.
  intros Hwf Hc [j Hj].
  apply (used_not_free t (Z.of_nat j)).
  - exists (Slot_of k v). by rewrite Nat2Z.id.
  - apply count_zero_free; [done | done |]. by eapply holds_at_range.
Qed.

(** Before the first insertion into a table without entries: the table
    is grown if it has no slots, and is then an empty packed chain. *)
Lemma make_room avail (t : hash_table) h :
  wf t → count t = 0 → capacity t ≠ 0 ∨ 8 ≤ avail →
  ∃ t', (if should_rehash t then rehash avail t else Ok t) = Ok t' ∧
        wf t' ∧ count t' = 0 ∧
        capacity t' = (if capacity t =? 0 then 8 else capacity t) ∧
        should_rehash t' = false ∧
        packed h t' ∧
        (∀ k v, ¬ holds t' k v).
Proof.
  intros Hwf Hc Hroom.
  assert (∀ t' : hash_table, wf t' → count t' = 0 → capacity t' ≠ 0 →
            should_rehash t' = false ∧ packed h t' ∧ ∀ k v, ¬ holds t' k v) as Hempty.
  { intros t' Hwf' Hc' Hn'. split; [| split].
    - apply should_rehash_false_intro; [done | done |].
      pose proof (vsize_nonneg (slots t')). unfold capacity. lia.
    - split; intros d Hd; [lia |].
      apply count_zero_free; [done | done | apply ring_range; lia].
    - intros k v. by apply count_zero_no_holds. }
  destruct (is_capacity_cases _ (wf_capacity _ Hwf)) as [Hn | [Hb _]].
  - destruct Hroom as [? | Hav]; [done |].
    assert (should_rehash t = true) as ->.
    { unfold should_rehash. fold (capacity t). by rewrite Hn. }
    pose proof vector_max_size_bounds as Hmax.
    destruct (rehash_ok avail t Hwf) as (t' & -> & Hwf' & Hcap' & Hc' & _ & _).
    { rewrite Hn. unfold grown. simpl. lia. }
    { rewrite Hn. unfold grown. simpl. lia. }
    rewrite Hn in *. change (grown 0) with 8 in Hcap'.
    exists t'. split; [done |]. split; [done |]. split; [lia |].
    split; [done |]. apply Hempty; [done | lia | lia].
  - destruct (Hempty t Hwf Hc ltac:(lia)) as (Hsr & Hp & Hno).
    rewrite Hsr. exists t. split; [done |]. split; [done |]. split; [done |].
    split; [| done]. by replace (capacity t =? 0) with false by lia.
Qed.

(** ** Three colliding keys *)

(** On a table without entries and with memory for eight slots, under a
    hash that sends every key to [h]: [set(a)], [set(b)], [set(c)] fill
    three slots in a row from the natural slot on, and [remove(b)] frees
    the middle one. *)
Lemma three_colliding_keys h avail (t0 : hash_table) a va b vb c vc :
  (∀ k, Hash k = h) → a ≠ b → a ≠ c → b ≠ c →
  wf t0 → count t0 = 0 → capacity t0 ≠ 0 ∨ 8 ≤ avail →
  ∃ n t1 t2 t3 t4,
    n = (if capacity t0 =? 0 then 8 else capacity t0) ∧
    set avail t0 a va = Ok (h mod n, t1) ∧
    set avail t1 b vb = Ok ((h + 1) mod n, t2) ∧
    set avail t2 c vc = Ok ((h + 2) mod n, t3) ∧
    remove t3 b = Ok t4 ∧
    wf t4 ∧ capacity t4 = n ∧ count t4 = 2 ∧
    holds_at t4 (Z.to_nat (h mod n)) a va ∧
    free_at t4 ((h + 1) mod n) ∧
    holds_at t4 (Z.to_nat ((h + 2) mod n)) c vc ∧
    2 ≤ max_hash_offset t4.
Proof.
  intros Hconst Hab Hac Hbc Hwf0 Hc0 Hroom.
  destruct (make_room avail t0 h Hwf0 Hc0 Hroom)
    as (u & Hu & Hwfu & Hcu & Hcapu & Hsru & Hpu & Hnou).
  set (n := if capacity t0 =? 0 then 8 else capacity t0) in *.
  assert (8 ≤ n) as Hn.
  { destruct (is_capacity_cases _ (wf_capacity _ Hwfu)) as [? | [? _]]; [| lia].
    destruct (should_rehash_false u Hwfu Hsru) as (e & He & Hn & _).
    pose proof (pow2_bounds e He). lia. }
  assert (∀ d1 d2, 0 ≤ d1 < 8 → 0 ≤ d2 < 8 → d1 ≠ d2 →
            Z.to_nat ((h + d1) mod n) ≠ Z.to_nat ((h + d2) mod n)) as Hdiff.
  { intros d1 d2 H1 H2 Hne Heq.
    pose proof (ring_range h d1 n ltac:(lia)).
    pose proof (ring_range h d2 n ltac:(lia)).
    apply Hne, (ring_inj h d1 d2 n); lia. }
  (* set(a) *)
  rewrite <- (Hconst a) in Hpu.
  destruct (insert_packed_full u a va Hwfu Hsru (Hnou a) Hpu)
    as (t1 & Hr1 & Hp1 & Hwf1 & Hcap1 & Hc1 & Hm1 & Ha1 & Hoth1 & Hh1).
  rewrite (Hconst a), Hcu, Hcapu in *.
  (* set(b) *)
  assert (should_rehash t1 = false) as Hsr1
    by (apply should_rehash_false_intro; [done | lia | lia]).
  assert (∀ v', ¬ holds t1 b v') as Hno1.
  { intros v' [[? _] | H]%Hh1; [done | by apply (Hnou b v')]. }
  rewrite <- (Hconst b) in Hp1.
  destruct (insert_packed_full t1 b vb Hwf1 Hsr1 Hno1 Hp1)
    as (t2 & Hr2 & Hp2 & Hwf2 & Hcap2 & Hc2 & Hm2 & Hb2 & Hoth2 & Hh2).
  rewrite (Hconst b), Hc1, Hcap1 in *.
  (* set(c) *)
  assert (should_rehash t2 = false) as Hsr2
    by (apply should_rehash_false_intro; [done | lia | lia]).
  assert (∀ v', ¬ holds t2 c v') as Hno2.
  { intros v' [[? _] | [[? _] | H]%Hh1]%Hh2; [done | done | by apply (Hnou c v')]. }
  rewrite <- (Hconst c) in Hp2.
  destruct (insert_packed_full t2 c vc Hwf2 Hsr2 Hno2 Hp2)
    as (t3 & Hr3 & Hp3 & Hwf3 & Hcap3 & Hc3 & Hm3 & Hc3' & Hoth3 & Hh3).
  rewrite (Hconst c), Hc2, Hcap2 in *.
  simpl in *.
  (* where the three keys are *)
  assert (holds_at t3 (Z.to_nat ((h + 1) mod n)) b vb) as Hb3.
  { apply Hoth3; [apply Hdiff; lia | done]. }
  assert (holds_at t3 (Z.to_nat ((h + 0) mod n)) a va) as Ha3.
  { apply Hoth3; [apply Hdiff; lia |]. apply Hoth2; [apply Hdiff; lia | done]. }
  (* remove(b) *)
  destruct (remove_at t3 _ b vb Hwf3 Hb3)
    as (t4 & Hr4 & Hwf4 & Hcap4 & Hc4 & Hm4 & Hf4 & Hoth4).
  rewrite Z2Nat.id in Hf4 by (apply ring_range; lia).
  exists n, t1, t2, t3, t4.
  split; [done |].
  split.
  { rewrite (set_new_unfold avail t0 a va Hwf0), Hu.
    - simpl. rewrite Hr1. by rewrite Z.add_0_r.
    - intros v'. by apply count_zero_no_holds. }
  split; [by rewrite (set_no_rehash avail t1 b vb Hwf1 Hno1 Hsr1) |].
  split; [by rewrite (set_no_rehash avail t2 c vc Hwf2 Hno2 Hsr2) |].
  split; [done |]. split; [done |]. split; [lia |]. split; [lia |].
  split.
  { rewrite <- (Z.add_0_r h). apply Hoth4; [apply Hdiff; lia | done]. }
  split; [done |].
  split; [apply Hoth4; [apply Hdiff; lia | done] |].
  lia.
Qed.

(** ** [rehash] under a constant hash *)




(** ** Reading after writing *)

Lemma get_ext (t t' : hash_table) k :
  wf t → wf t' → (∀ v, holds t' k v ↔ holds t k v) → get t' k = get t k.
Proof.
  intros Hwf Hwf' Hh.
  destruct (get_spec t k Hwf) as [(v & Hv & ->) | [Hno ->]].
  - apply get_Some; [done |]. by apply Hh.
  - apply get_None; [done |]. intros v Hv%Hh. by destruct (Hno v).
Qed.

Lemma set_get avail (t t' : hash_table) k v i :
  wf t → set avail t k v = Ok (i, t') →
  wf t' ∧ ∀ k', get t' k' = if Equal k k' then Ok (Some v) else get t k'.
Proof.
  intros Hwf Hr.
  destruct (set_outcome avail t k v Hwf) as [(i0 & t0 & Hr0 & Hwf' & Hh) | [Hr0 _]];
    [| congruence].
  rewrite Hr in Hr0. injection Hr0 as <- <-.
  split; [done |]. intros k'. destruct (Equal k k') eqn:E.
  - apply Equal_spec in E as <-. apply get_Some; [done |]. apply Hh. by left.
  - apply get_ext; [done | done |]. intros v'. rewrite Hh. split.
    + by intros [[-> _] | [_ H]]; [rewrite (proj2 (Equal_spec k k)) in E |].
    + intros H. right. split; [| done]. intros ->.
      by rewrite (proj2 (Equal_spec k k)) in E.
Qed.

Lemma remove_get (t t' : hash_table) k :
  wf t → remove t k = Ok t' →
  wf t' ∧ ∀ k', get t' k' = if Equal k k' then Ok None else get t k'.
Proof.
  intros Hwf Hr.
  destruct (remove_ok t k Hwf) as (t0 & Hr0 & Hwf' & _ & _ & _ & Hh).
  rewrite Hr in Hr0. injection Hr0 as <-.
  split; [done |]. intros k'. destruct (Equal k k') eqn:E.
  - apply Equal_spec in E as <-. apply get_None; [done |].
    intros v [Hne _]%Hh. done.
  - apply get_ext; [done | done |]. intros v'. rewrite Hh. split.
    + by intros [_ H].
    + intros H. split; [| done]. intros ->.
      by rewrite (proj2 (Equal_spec k k)) in E.
Qed.

Lemma set_run_get (t t' : hash_table) calls :
  wf t → set_run t calls t' →
  wf t' ∧
  ∀ k, get t' k = match last_set calls k with
                  | Some v => Ok (Some v)
                  | None => get t k
                  end.
Proof.
  intros Hwf Hrun. induction Hrun as [t | avail t k0 v0 i t1 calls t' Hr _ IH].
  - done.
  - destruct (set_get avail t t1 k0 v0 i Hwf Hr) as [Hwf1 Hg1].
    destruct (IH Hwf1) as [Hwf' Hg']. split; [done |].
    intros k. rewrite Hg'. simpl.
    destruct (last_set calls k); [done |].
    rewrite Hg1. by destruct (Equal k0 k).
Qed.

Lemma resize_fresh_None avail n :
  0 < n →
  resize avail [] n = None ↔
  ¬ (n ≤ avail ∧ n ≤ vector_max_size).
Proof.
  intros Hn. rewrite resize_fresh by done.
  destruct (Z.leb_spec n avail); destruct (Z.leb_spec n vector_max_size);
    simpl; split; try done; try lia.
Qed.

(** The pre-sizing constructor either returns a table without entries
    whose capacity is the least power of two, 8 or more, that covers
    [min_num_slots], or ends in [std::terminate] because the allocation
    of that many slots failed. *)
Lemma with_capacity_spec avail n :
  ∃ e, 3 ≤ e ≤ 63 ∧
       wrap (wrap (n * 4) + 2) / 3 ≤ 2 ^ e ∧
       (3 < e → 2 ^ (e - 1) < wrap (wrap (n * 4) + 2) / 3) ∧
       if (2 ^ e <=? avail) && (2 ^ e <=? vector_max_size)
       then ∃ t : hash_table,
              hash_table_with_capacity avail n = Ok t ∧
              wf t ∧ capacity t = 2 ^ e ∧ count t = 0 ∧ max_hash_offset t = 0
       else hash_table_with_capacity avail n = Abort.
Proof.
  unfold hash_table_with_capacity.
  destruct (grow_cap_spec _ (min_num_slots_small n) 64 3)
    as (e & He & Hr & Hcover & Hmin); [lia | lia |].
  change (2 ^ 3) with 8 in Hr. rewrite Hr. simpl.
  exists e. split; [lia |]. split; [done |]. split; [done |].
  assert (0 < 2 ^ e) as Hpos by (apply Z.pow_pos_nonneg; lia).
  rewrite resize_fresh by done.
  destruct ((2 ^ e <=? avail) && (2 ^ e <=? vector_max_size)) eqn:Hok; [| done].
  eexists. split; [done |].
  apply andb_true_iff in Hok as [_ Hmax%Z.leb_le].
  assert (e ≤ 61) as He'.
  { destruct (Z_le_gt_dec e 61); [done |].
    assert (2 ^ 62 ≤ 2 ^ e) by (apply Z.pow_le_mono_r; lia).
    pose proof vector_max_size_bounds. lia. }
  split; [| split; [| done]].
  - apply fresh_slots_wf. rewrite Z2Nat.id by lia. right. exists e. lia.
  - unfold capacity, vsize. simpl. rewrite length_replicate. lia.
Qed.

(** On any well-formed table and under any hash: a key set last is still
    found after another key, set before it, has been removed. *)
Lemma get_after_remove_other avail (t0 t1 t2 t3 t4 : hash_table)
    a va b vb c vc i1 i2 i3 :
  wf t0 → b ≠ c →
  set avail t0 a va = Ok (i1, t1) →
  set avail t1 b vb = Ok (i2, t2) →
  set avail t2 c vc = Ok (i3, t3) →
  remove t3 b = Ok t4 →
  get t4 c = Ok (Some vc).
Proof.
  intros Hwf0 Hbc H1 H2 H3 H4.
  destruct (set_get avail t0 t1 a va i1 Hwf0 H1) as [Hwf1 _].
  destruct (set_get avail t1 t2 b vb i2 Hwf1 H2) as [Hwf2 _].
  destruct (set_get avail t2 t3 c vc i3 Hwf2 H3) as [Hwf3 Hg3].
  destruct (remove_get t3 t4 b Hwf3 H4) as [_ Hg4].
  rewrite Hg4, Hg3, (proj2 (Equal_spec c c)) by done.
  destruct (Equal b c) eqn:E; [| done].
  apply Equal_spec in E. done.
Qed.

(** ** The contract *)

(** C1. Under a hash that sends every key to the same natural slot, on a
    table without entries (and with memory for its first eight slots):
    [set(a)], [set(b)], [set(c)] return and put the three keys in the
    slots [i], [i + 1], [i + 2] (round the ring of [n] slots), where [i]
    is the natural slot; [remove(b)] returns and frees slot [i + 1]; and
    [get(c)] still finds the value stored for [c], two steps past the
    natural slot and behind the freed one. *)
Theorem get_walks_past_freed_slot h avail (t0 : hash_table) a va b vb c vc :
  (∀ k, Hash k = h) → a ≠ b → a ≠ c → b ≠ c →
  reachable t0 → count t0 = 0 → capacity t0 ≠ 0 ∨ 8 ≤ avail →
  ∃ n t1 t2 t3 t4,
    n = capacity t4 ∧
    set avail t0 a va = Ok (h mod n, t1) ∧
    set avail t1 b vb = Ok ((h + 1) mod n, t2) ∧
    set avail t2 c vc = Ok ((h + 2) mod n, t3) ∧
    remove t3 b = Ok t4 ∧
    key_index t4 c = Ok (h mod n) ∧
    holds_at t4 (Z.to_nat (h mod n)) a va ∧
    free_at t4 ((h + 1) mod n) ∧
    holds_at t4 (Z.to_nat ((h + 2) mod n)) c vc ∧
    get_slot t4 c = Ok (Some ((h + 2) mod n)) ∧
    get t4 c = Ok (Some vc).
Proof.
  intros Hconst Hab Hac Hbc Hreach Hc0 Hroom.
  pose proof (reachable_wf t0 Hreach) as Hwf0.
  destruct (three_colliding_keys h avail t0 a va b vb c vc
              Hconst Hab Hac Hbc Hwf0 Hc0 Hroom)
    as (n & t1 & t2 & t3 & t4 & Hn & H1 & H2 & H3 & H4 & Hwf4 & Hcap4 & Hc4
        & Ha & Hf & Hc & Hm).
  exists n, t1, t2, t3, t4.
  assert (∃ e, 3 ≤ e ≤ 61 ∧ capacity t4 = 2 ^ e) as (e & He & Hpow).
  { destruct (is_capacity_cases _ (wf_capacity _ Hwf4)) as [H0 | [_ H]]; [| done].
    apply holds_at_range in Hc. lia. }
  pose proof (pow2_bounds e He) as Hb.
  split; [done |]. split; [done |]. split; [done |]. split; [done |].
  split; [done |].
  split; [by rewrite (key_index_Ok t4 e c He Hpow), Hconst, Hcap4 |].
  split; [done |]. split; [done |]. split; [done |]. split.
  - destruct (get_slot_spec t4 c Hwf4) as [(j & v & Hj & ->) | [Hno _]].
    + pose proof (wf_unique _ Hwf4 _ _ _ _ _ Hj Hc) as ->.
      rewrite Z2Nat.id; [done |]. apply ring_range. lia.
    + destruct (Hno vc). by eexists.
  - apply get_Some; [done |]. by eexists.
Qed.

(** The load bound the code keeps: in every reachable state the count is
    at most one more than three quarters of the capacity, since [set]
    tests the load before it inserts, not after. *)
Lemma reachable_load (t : hash_table) :
  reachable t → capacity t = 0 ∨ count t ≤ capacity t * 3 / 4 + 1.
Proof.
  intros Hwf%reachable_wf.
  destruct (is_capacity_cases _ (wf_capacity _ Hwf))
    as [Hn | [Hb (e & He & Hn)]]; [by left | right].
  destruct (pow2_quarter e He) as (q & Hq & Hn'). rewrite <- Hn in Hn'.
  pose proof (wf_load _ Hwf) as Hload.
  replace (capacity t * 3) with (3 * q * 4) by lia.
  rewrite Z.div_mul by lia. lia.
Qed.

(** C3. An insertion that triggers a rehash (the key is new and
    [should_rehash()] holds) returns whenever the allocation of the new
    slot store is granted.  The capacity has then grown, to 8 or to twice
    what it was, the count by one, the new key is mapped to its value, and
    every key present before the insertion is still mapped to the same
    value. *)
Theorem rehash_preserves_contents avail (t : hash_table) k' v' slots' :
  reachable t →
  get t k' = Ok None → should_rehash t = true →
  resize avail [] (grown (capacity t)) = Some slots' →
  ∃ i t', set avail t k' v' = Ok (i, t') ∧
          capacity t' = (if capacity t =? 0 then 8 else 2 * capacity t) ∧
          capacity t < capacity t' ∧
          count t' = count t + 1 ∧
          get t' k' = Ok (Some v') ∧
          ∀ k v, get t k = Ok (Some v) → get t' k = Ok (Some v).
Proof.
  intros Hwf%reachable_wf Hnew Hsr Hres.
  pose proof (proj1 (get_None t k' Hwf) Hnew) as Hno.
  assert (grown (capacity t) ≤ avail ∧
          grown (capacity t) ≤ vector_max_size) as Hroom.
  { destruct (decide (grown (capacity t) ≤ avail ∧
                      grown (capacity t) ≤ vector_max_size)) as [H | H];
      [done |].
    apply resize_fresh_None in H; [congruence |].
    apply grown_pos, vsize_nonneg. }
  destruct (set_new avail t k' v' Hwf Hno (or_intror Hroom))
    as (i & t' & Hr & Hwf' & Hcap & Hc & _ & Hh).
  exists i, t'. rewrite Hsr in Hcap. fold (grown (capacity t)).
  split; [done |]. split; [done |]. split; [| split; [done |]; split].
  - rewrite Hcap. unfold grown. pose proof (vsize_nonneg (slots t)) as Hpos.
    fold (capacity t) in Hpos. destruct (Z.eqb_spec (capacity t) 0); lia.
  - apply get_Some; [done |]. apply Hh. by left.
  - intros k v Hk%get_Some; [| done]. apply get_Some; [done |].
    apply Hh. by right.
Qed.


(** C5, as the code has it. When the allocation of the new slot store
    fails during a rehash, the failure propagates to the caller of
    [rehash] and of [set], and the table is left valid but empty:
    [rehash] has moved the old slot store out and cleared the table
    before it allocates, so the previous contents, count and
    [max_hash_offset] are gone. *)
Theorem rehash_allocation_failure avail (t : hash_table) k v :
  reachable t →
  get t k = Ok None → should_rehash t = true →
  resize avail [] (grown (capacity t)) = None →
  rehash avail t = Throw (clear t) ∧
  set avail t k v = Throw (clear t) ∧
  reachable (clear t) ∧
  capacity (clear t) = 0 ∧ count (clear t) = 0 ∧
  max_hash_offset (clear t) = 0 ∧
  ∀ k', get (clear t) k' = Ok None.
Proof.
  intros Hreach Hnew Hsr Hfail.
  pose proof (reachable_wf t Hreach) as Hwf.
  pose proof (proj1 (get_None t k Hwf) Hnew) as Hno.
  apply resize_fresh_None in Hfail; [| apply grown_pos, vsize_nonneg].
  split; [by apply rehash_throw |].
  split; [by apply set_throw |].
  split; [by apply reach_clear |]. done.
Qed.

(** C6. After a run of [set] calls that all return, [get(k)] returns the
    value of the most recent [set(k, v)] of the run, and for a key the run
    did not set, what it returned before the run.  That lasts until the
    key is removed: [remove(k)] makes [get(k)] miss and changes no other
    key. *)
Theorem set_get_round_trip (t t' : hash_table) calls :
  reachable t → set_run t calls t' →
  (∀ k, get t' k = match last_set calls k with
                   | Some v => Ok (Some v)
                   | None => get t k
                   end) ∧
  (∀ k, ∃ t'', remove t' k = Ok t'' ∧
               get t'' k = Ok None ∧
               ∀ k', k' ≠ k → get t'' k' = get t' k').
Proof.
  intros Hwf%reachable_wf Hrun.
  destruct (set_run_get t t' calls Hwf Hrun) as [Hwf' Hg].
  split; [done |]. intros k.
  destruct (remove_ok t' k Hwf') as (t'' & Hr & _).
  destruct (remove_get t' t'' k Hwf' Hr) as [_ Hg''].
  exists t''. split; [done |]. split.
  - rewrite Hg''. by rewrite (proj2 (Equal_spec k k)).
  - intros k' Hne. rewrite Hg''. destruct (Equal k k') eqn:E; [| done].
    apply Equal_spec in E. congruence.
Qed.

(** C7. In every reachable state the capacity is 0 or a power of two.
    [rehash] either returns, with 8 slots for a table that had none and
    otherwise with twice the capacity, or throws because the allocation
    failed.  The pre-sizing constructor either returns a table whose
    capacity is a power of two, 8 or more, or ends in [std::terminate]
    because the allocation failed. *)
Theorem capacity_power_of_two (t : hash_table) :
  reachable t →
  (capacity t = 0 ∨ ∃ e, 0 ≤ e ∧ capacity t = 2 ^ e) ∧
  (∀ avail,
     (∃ t', rehash avail t = Ok t' ∧
            capacity t' = (if capacity t =? 0 then 8 else 2 * capacity t))
     ∨ rehash avail t = Throw (clear t)) ∧
  (∀ avail n,
     (∃ t1 : hash_table,
        hash_table_with_capacity avail n = Ok t1 ∧
        8 ≤ capacity t1 ∧ ∃ e, 0 ≤ e ∧ capacity t1 = 2 ^ e)
     ∨ @hash_table_with_capacity Key Value Ops avail n = Abort).
Proof.
  intros Hwf%reachable_wf. split; [| split].
  - destruct (wf_capacity _ Hwf) as [H0 | (e & He & Hn)]; [by left | right].
    exists e. split; [lia | done].
  - intros avail.
    assert (Decision (grown (capacity t) ≤ avail ∧
                      grown (capacity t) ≤ vector_max_size)) as [[Hav Hmax] | Hfail]
      by apply _.
    + left. destruct (rehash_ok avail t Hwf Hav Hmax) as (t' & Hr & _ & Hcap & _).
      by exists t'.
    + right. by apply rehash_throw.
  - intros avail n.
    destruct (with_capacity_spec avail n) as (e & He & _ & _ & Hr).
    destruct ((2 ^ e <=? avail) && (2 ^ e <=? vector_max_size)) eqn:Hok;
      [left | by right].
    destruct Hr as (t1 & Hr & Hwf1 & Hcap & _). exists t1. split; [done |].
    apply andb_true_iff in Hok as [_ Hmax%Z.leb_le].
    assert (0 < 2 ^ e) by (apply Z.pow_pos_nonneg; lia).
    destruct (is_capacity_cases _ (wf_capacity _ Hwf1)) as [? | [? _]]; [lia |].
    split; [lia |]. exists e. split; [lia | done].
Qed.

(** C8. A range-for over a reachable table returns; it yields exactly
    [count] pairs, no key twice, and the keys it yields are the keys for
    which [get] succeeds, each with the value [get] returns. *)
Theorem iteration_complete (t : hash_table) :
  reachable t →
  ∃ l, items t = Ok l ∧
       Z.of_nat (length l) = count t ∧
       NoDup (List.map key l) ∧
       (∀ k, In k (List.map key l) ↔ ∃ v, get t k = Ok (Some v)) ∧
       (∀ k v, In (mkKeyValue k v) l ↔ get t k = Ok (Some v)).
Proof.
  intros Hwf%reachable_wf. exists (contents t).
  assert (∀ k v, In (mkKeyValue k v) (contents t) ↔ get t k = Ok (Some v)) as Hin.
  { intros k v. rewrite <- list_elem_of_In, elem_of_contents.
    symmetry. by apply get_Some. }
  split; [by apply items_contents |]. split; [| split; [| split; [| done]]].
  - unfold contents. rewrite length_map. symmetry. apply (wf_count _ Hwf).
  - apply contents_NoDup. apply (wf_unique _ Hwf).
  - intros k. rewrite in_map_iff. split.
    + intros ([k0 v] & <- & H). exists v. by apply Hin.
    + intros [v Hv]. exists (mkKeyValue k v). split; [done |]. by apply Hin.
Qed.

(** C9. In every reachable state [count] is the number of slots whose
    [used] flag is set. *)
Theorem count_is_used_slots (t : hash_table) :
  reachable t → count t = count_used (slots t) ∧ size t = count_used (slots t).
Proof. intros Hwf%reachable_wf. split; apply (wf_count _ Hwf). Qed.

(** C10. Move construction hands the slots, the count and
    [max_hash_offset] of the source to the new table, which maps every
    key as the source did, and leaves the source without slots, with
    count 0 and [max_hash_offset] 0: every [get] on it misses. *)
Theorem move_leaves_source_empty (t : hash_table) :
  slots (fst (hash_table_move t)) = slots t ∧
  count (fst (hash_table_move t)) = count t ∧
  max_hash_offset (fst (hash_table_move t)) = max_hash_offset t ∧
  (∀ k, get (fst (hash_table_move t)) k = get t k) ∧
  capacity (snd (hash_table_move t)) = 0 ∧
  count (snd (hash_table_move t)) = 0 ∧
  max_hash_offset (snd (hash_table_move t)) = 0 ∧
  (∀ k, get (snd (hash_table_move t)) k = Ok None).
Proof. destruct t. done. Qed.

Lemma set_each_reachable avail (elems : list KeyValue) :
  ∀ t t' : hash_table,
    reachable t → set_each avail t elems = Ok t' → reachable t'.
Proof.
  induction elems as [| elem rest IH]; intros t t' Hreach Hr; simpl in Hr.
  - by injection Hr as <-.
  - destruct (set avail t (key elem) (value elem)) as [[i t1] | | |] eqn:E;
      simpl in Hr; try done.
    apply (IH t1 t'); [| done].
    apply (reach_set avail t (key elem) (value elem) t1 Hreach).
    by rewrite E.
Qed.

End Proofs.

(** ** The contract on the two instances *)

Lemma colliding_strings_Equal_spec :
  ∀ a b : string, Equal a b = true ↔ a = b.
Proof. exact String.eqb_eq. Qed.

Lemma plain_ints_Equal_spec : ∀ a b : Z, Equal a b = true ↔ a = b.
Proof. exact Z.eqb_eq. Qed.

Lemma seven_built :
  set_each 8 hash_table_new (decades [1; 2; 3; 4; 5; 6; 7]) = Ok seven.
Proof. by vm_compute. Qed.

Lemma seven_reachable : reachable seven.
Proof.
  apply (set_each_reachable 8 (decades [1; 2; 3; 4; 5; 6; 7]) hash_table_new).
  - apply reach_new.
  - exact seven_built.
Qed.

(** C1 on strings: "a", "b", "c" land in slots 5, 6, 7 of eight. *)
Lemma get_walks_past_freed_slot_witness :
  ∃ n t1 t2 t3 t4,
    n = capacity t4 ∧
    set 8 hash_table_new "a" 1 = Ok (5 mod n, t1) ∧
    set 8 t1 "b" 2 = Ok ((5 + 1) mod n, t2) ∧
    set 8 t2 "c" 3 = Ok ((5 + 2) mod n, t3) ∧
    remove t3 "b" = Ok t4 ∧
    key_index t4 "c" = Ok (5 mod n) ∧
    holds_at t4 (Z.to_nat (5 mod n)) "a" 1 ∧
    free_at t4 ((5 + 1) mod n) ∧
    holds_at t4 (Z.to_nat ((5 + 2) mod n)) "c" 3 ∧
    get_slot t4 "c" = Ok (Some ((5 + 2) mod n)) ∧
    get t4 "c" = Ok (Some 3).
Proof.
  apply (get_walks_past_freed_slot colliding_strings_Equal_spec 5 8
           hash_table_new "a" 1 "b" 2 "c" 3).
  - reflexivity.
  - discriminate.
  - discriminate.
  - discriminate.
  - apply reach_new.
  - reflexivity.
  - right. lia.
Defined.

(** C2: the code breaks the bound.  Seven [set] calls on a
    default-constructed table leave 7 entries in 8 slots, one more than
    three quarters of 8; the next [set] would grow the table, this one did
    not.  The initializer-list constructor gives the same seven pairs 16
    slots. *)
Theorem load_factor_bound_exceeded :
  set_each 8 hash_table_new (decades [1; 2; 3; 4; 5; 6; 7]) = Ok seven ∧
  reachable seven ∧
  capacity seven = 8 ∧
  count seven = 7 ∧
  capacity seven * 3 / 4 = 6 ∧
  capacity seven * 3 / 4 < count seven ∧
  should_rehash seven = true ∧
  ∃ t, hash_table_of_list 16 (decades [1; 2; 3; 4; 5; 6; 7]) = Ok t ∧
       capacity t = 16 ∧ count t = 7.
Proof.
  split; [exact seven_built |]. split; [exact seven_reachable |].
  split; [reflexivity |]. split; [reflexivity |]. split; [reflexivity |].
  split; [reflexivity |]. split; [reflexivity |].
  eexists. split; [by vm_compute |]. split; reflexivity.
Qed.

(** C3 on integers: with memory for sixteen slots the eighth key grows
    [seven] from 8 to 16 slots, and the seven keys keep their values. *)
Lemma rehash_preserves_contents_witness :
  resize 16 [] (grown (capacity seven)) = Some (replicate 16 Slot_empty) ∧
  ∃ i t', set 16 seven 8 80 = Ok (i, t') ∧
          capacity t' = 16 ∧
          capacity seven < capacity t' ∧
          count t' = count seven + 1 ∧
          get t' 8 = Ok (Some 80) ∧
          ∀ k v, get seven k = Ok (Some v) → get t' k = Ok (Some v).
Proof.
  split; [reflexivity |].
  apply (rehash_preserves_contents plain_ints_Equal_spec 16 seven 8 80
           (replicate 16 Slot_empty)).
  - exact seven_reachable.
  - reflexivity.
  - reflexivity.
  - reflexivity.
Defined.



(** C5 as claimed fails: with memory for eight slots only, [set(8, 80)]
    on [seven] must grow the table to sixteen; the allocation fails, the
    exception propagates, and the table is left empty: key 1, mapped to 10
    before the call, is gone, and so are the count and the slots. *)
Lemma failed_rehash_loses_contents_counterexample :
  get seven 1 = Ok (Some 10) ∧
  count seven = 7 ∧
  capacity seven = 8 ∧
  resize 8 [] 16 = None ∧
  rehash 8 seven = Throw hash_table_new ∧
  set 8 seven 8 80 = Throw hash_table_new ∧
  get hash_table_new 1 = Ok None ∧
  count (@hash_table_new Z Z) = 0 ∧
  capacity (@hash_table_new Z Z) = 0.
Proof. repeat split; by vm_compute. Qed.

(** C5 as the code has it, on integers. *)
Lemma rehash_allocation_failure_witness :
  rehash 8 seven = Throw (clear seven) ∧
  set 8 seven 8 80 = Throw (clear seven) ∧
  reachable (clear seven) ∧
  capacity (clear seven) = 0 ∧ count (clear seven) = 0 ∧
  max_hash_offset (clear seven) = 0 ∧
  ∀ k', get (clear seven) k' = Ok None.
Proof.
  apply (rehash_allocation_failure plain_ints_Equal_spec 8 seven 8 80).
  - exact seven_reachable.
  - reflexivity.
  - reflexivity.
  - reflexivity.
Defined.

(** C6 on integers: [set(1, 10)], [set(2, 20)], [set(1, 11)]. *)
Lemma set_get_round_trip_witness :
  (∀ k, get thrice k = match last_set [(1, 10); (2, 20); (1, 11)] k with
                       | Some v => Ok (Some v)
                       | None => get hash_table_new k
                       end) ∧
  (∀ k, ∃ t'', remove thrice k = Ok t'' ∧
               get t'' k = Ok None ∧
               ∀ k', k' ≠ k → get t'' k' = get thrice k').
Proof.
  apply (set_get_round_trip plain_ints_Equal_spec hash_table_new thrice
           [(1, 10); (2, 20); (1, 11)]).
  - apply reach_new.
  - eapply (set_run_cons 8); [reflexivity |].
    eapply (set_run_cons 8); [reflexivity |].
    eapply (set_run_cons 8); [reflexivity |].
    apply set_run_nil.
Defined.

(** C7 on integers. *)
Lemma capacity_power_of_two_witness :
  (capacity seven = 0 ∨ ∃ e, 0 ≤ e ∧ capacity seven = 2 ^ e) ∧
  (∀ avail,
     (∃ t', rehash avail seven = Ok t' ∧
            capacity t' = (if capacity seven =? 0 then 8 else 2 * capacity seven))
     ∨ rehash avail seven = Throw (clear seven)) ∧
  (∀ avail n,
     (∃ t1 : hash_table,
        hash_table_with_capacity avail n = Ok t1 ∧
        8 ≤ capacity t1 ∧ ∃ e, 0 ≤ e ∧ capacity t1 = 2 ^ e)
     ∨ @hash_table_with_capacity Z Z plain_ints avail n = Abort).
Proof.
  apply (capacity_power_of_two plain_ints_Equal_spec seven).
  exact seven_reachable.
Defined.

(** C8 on integers. *)
Lemma iteration_complete_witness :
  ∃ l, items seven = Ok l ∧
       Z.of_nat (length l) = count seven ∧
       NoDup (List.map key l) ∧
       (∀ k, In k (List.map key l) ↔ ∃ v, get seven k = Ok (Some v)) ∧
       (∀ k v, In (mkKeyValue k v) l ↔ get seven k = Ok (Some v)).
Proof.
  apply (iteration_complete plain_ints_Equal_spec seven).
  exact seven_reachable.
Defined.

(** C9 on integers. *)
Lemma count_is_used_slots_witness :
  count seven = count_used (slots seven) ∧ size seven = count_used (slots seven).
Proof.
  apply (count_is_used_slots plain_ints_Equal_spec seven).
  exact seven_reachable.
Defined.

(** * Further properties of the table *)

Section More.

Context {Key Value : Type} {Ops : TableOps Key Value}.

(** [Equal] decides equality of keys, as [std::equal_to] does. *)
Hypothesis Equal_spec : ∀ a b : Key, Equal a b = true ↔ a = b.

Local Abbreviation hash_table := (@hash_table Key Value).
Local Abbreviation to_wf := (reachable_wf Equal_spec).

(** ** Load and safety *)

(** In every reachable state a table without slots has no entries, and a
    table with slots has at least 8 of them, at most one entry more than
    three quarters of its capacity, and at least one free slot: the walk
    of an insertion always has a slot to stop at. *)
Theorem load_leaves_a_free_slot (t : hash_table) :
  reachable t →
  (capacity t = 0 ∧ count t = 0)
  ∨ (8 ≤ capacity t ∧
     count t ≤ capacity t * 3 / 4 + 1 ∧
     count t < capacity t ∧
     ∃ i, 0 ≤ i < capacity t ∧ free_at t i).
Proof.
  intros Hreach. pose proof (to_wf t Hreach) as Hwf.
  pose proof (wf_count _ Hwf) as Hc.
  pose proof (count_used_bounds (slots t)) as Hcu. fold (capacity t) in Hcu.
  destruct (is_capacity_cases _ (wf_capacity _ Hwf)) as [Hn | [Hb _]].
  - left. split; [done | lia].
  - right. split; [lia |].
    destruct (reachable_load Equal_spec t Hreach) as [? | Hload]; [lia |].
    pose proof (wf_load _ Hwf) as H4.
    assert (count t < capacity t) as Hlt by lia.
    split; [done |]. split; [done |].
    destruct (unused_slot_exists (slots t)) as (j & s & Hj & Hs).
    { fold (capacity t). lia. }
    exists (Z.of_nat j). split.
    + apply lookup_lt_Some in Hj. unfold capacity, vsize. lia.
    + exists s. by rewrite Nat2Z.id.
Qed.

(** On a reachable table no [assert] of the source fails, no slot is
    read out of range and no loop runs for ever: the lookups, [remove]
    and the iteration return, and [set] and [operator[]] return or let
    the allocation failure of a rehash through, leaving the table
    cleared. *)
Theorem operations_return (t : hash_table) avail k v :
  reachable t →
  (∃ r, get_slot t k = Ok r) ∧
  (∃ r, get t k = Ok r) ∧
  (∃ it, find t k = Ok it) ∧
  (∃ t', remove t k = Ok t') ∧
  (∃ l, items t = Ok l) ∧
  ((∃ i t', set avail t k v = Ok (i, t')) ∨ set avail t k v = Throw (clear t)) ∧
  ((∃ i t', subscript avail t k = Ok (i, t'))
   ∨ subscript avail t k = Throw (clear t)).
Proof.
  intros Hreach. pose proof (to_wf t Hreach) as Hwf.
  assert (∃ r, get_slot t k = Ok r) as (r & Hr).
  { destruct (get_slot_spec Equal_spec t k Hwf) as [(j & v1 & Hj & ->) | [_ ->]];
      by eexists. }
  split; [by exists r |].
  split; [apply (get_total Equal_spec t k Hwf) |].
  split; [unfold find; rewrite Hr; destruct r; by eexists |].
  split.
  { destruct (remove_ok Equal_spec t k Hwf) as (t' & Ht' & _). by exists t'. }
  split; [exists (contents t); by apply items_contents |].
  split.
  - destruct (set_outcome Equal_spec avail t k v Hwf)
      as [(i & t' & Ht' & _) | [Ht' _]]; [left; by exists i, t' | by right].
  - destruct (subscript_outcome Equal_spec avail t k Hwf)
      as [(i & t' & Ht' & _) | Ht']; [left; by exists i, t' | by right].
Qed.

(** ** [remove] *)

(** Removing a key the table does not hold leaves the table as it is, so
    a second [remove] of the same key changes nothing. *)
Theorem remove_twice (t : hash_table) k :
  reachable t →
  (get t k = Ok None → remove t k = Ok t) ∧
  (∀ t', remove t k = Ok t' → remove t' k = Ok t').
Proof.
  intros Hreach. pose proof (to_wf t Hreach) as Hwf. split.
  - intros Hmiss. apply (remove_absent Equal_spec t k Hwf).
    by apply (get_None Equal_spec t k Hwf).
  - intros t' Hr.
    destruct (remove_ok Equal_spec t k Hwf) as (t0 & Hr0 & Hwf' & _ & _ & _ & Hh).
    rewrite Hr in Hr0. injection Hr0 as <-.
    apply (remove_absent Equal_spec t' k Hwf').
    intros v' [Hne _]%Hh. done.
Qed.

(** Removing a key the table holds frees the slot [get_slot] finds and
    touches nothing else: no entry moves, the capacity and
    [max_hash_offset] stay, and the size drops by one. *)
Theorem remove_frees_one_slot (t : hash_table) k v :
  reachable t → get t k = Ok (Some v) →
  ∃ i t', get_slot t k = Ok (Some i) ∧
          remove t k = Ok t' ∧
          slots t' = vset (slots t) i Slot_empty ∧
          vget (slots t) i = Ok (Slot_of k v) ∧
          size t' = size t - 1 ∧
          capacity t' = capacity t ∧
          max_hash_offset t' = max_hash_offset t.
Proof.
  intros Hreach Hget. pose proof (to_wf t Hreach) as Hwf.
  apply (get_Some Equal_spec t k v Hwf) in Hget.
  destruct (remove_existing Equal_spec t k v Hwf Hget) as (j & Hj & Hr).
  destruct (get_slot_spec Equal_spec t k Hwf) as [(j' & v1 & Hj' & Hs) | [Hno _]];
    [| by destruct (Hno v)].
  pose proof (wf_unique _ Hwf _ _ _ _ _ Hj Hj') as <-.
  eexists _, _. split; [done |]. split; [done |]. split; [done |].
  split; [by apply vget_nat |]. split; [done |]. split; [| done].
  unfold capacity. simpl. apply vsize_vset.
Qed.

(** ** [set] *)

(** [set] of a key the table holds replaces the value in the slot
    [get_slot] finds and nothing else, whatever the load and the memory:
    it does not rehash, does not allocate and so never throws; the size,
    the capacity and [max_hash_offset] stay. *)
Theorem set_overwrites_in_place (t : hash_table) avail k v0 v :
  reachable t → get t k = Ok (Some v0) →
  ∃ i, get_slot t k = Ok (Some i) ∧
       vget (slots t) i = Ok (Slot_of k v0) ∧
       set avail t k v =
         Ok (i, mkTable (vset (slots t) i (Slot_of k v))
                        (count t) (max_hash_offset t)).
Proof.
  intros Hreach Hget. pose proof (to_wf t Hreach) as Hwf.
  apply (get_Some Equal_spec t k v0 Hwf) in Hget.
  destruct (get_slot_spec Equal_spec t k Hwf) as [(j & v1 & Hj & Hs) | [Hno _]];
    [| by destruct (Hno v0)].
  assert (holds t k v1) as Hv1 by (by exists j).
  pose proof (holds_functional t k v0 v1 Hwf Hget Hv1) as <-.
  exists (Z.of_nat j). split; [done |]. split; [by apply vget_nat |].
  unfold set. rewrite Hs. simpl. by rewrite (vget_nat _ _ _ Hj).
Qed.

(** How [set] stores a key the table does not hold: it rehashes first
    when the load asks for it, and then writes the first free slot from
    the natural slot of the key on. *)
Lemma set_new_result (t t' : hash_table) avail k v i :
  wf t → (∀ v', ¬ holds t k v') →
  set avail t k v = Ok (i, t') →
  ∃ t1 d,
    (if should_rehash t then rehash avail t else Ok t) = Ok t1 ∧
    wf t1 ∧ should_rehash t1 = false ∧
    count t1 = count t ∧
    capacity t1 = (if should_rehash t then grown (capacity t) else capacity t) ∧
    0 ≤ d < capacity t1 ∧
    i = (Hash k + d) mod capacity t1 ∧
    t' = mkTable (vset (slots t1) i (Slot_of k v)) (count t1 + 1)
                 (Z.max (max_hash_offset t1) d) ∧
    free_at t1 i ∧
    (∀ d', 0 ≤ d' < d → used_at t1 ((Hash k + d') mod capacity t1)) ∧
    (∀ k' v', holds t1 k' v' ↔ holds t k' v').
Proof.
  intros Hwf Hno Hset.
  rewrite (set_new_unfold Equal_spec avail t k v Hwf Hno) in Hset.
  assert (∃ t1, (if should_rehash t then rehash avail t else Ok t) = Ok t1 ∧
                wf t1 ∧ should_rehash t1 = false ∧ count t1 = count t ∧
                capacity t1 =
                  (if should_rehash t then grown (capacity t) else capacity t) ∧
                (∀ k' v', holds t1 k' v' ↔ holds t k' v'))
    as (t1 & Ht1 & Hwf1 & Hsr1 & Hc1 & Hcap1 & Hh1).
  { destruct (should_rehash t) eqn:Hsr; [| by exists t].
    assert (Decision (grown (capacity t) ≤ avail ∧
                      grown (capacity t) ≤ vector_max_size)) as [[Hav Hmax] | Hfail]
      by apply _.
    - destruct (rehash_ok Equal_spec avail t Hwf Hav Hmax)
        as (t1 & Hr & Hwf1 & Hcap1 & Hc1 & Hload1 & Hh1).
      exists t1. split; [done |]. split; [done |]. split; [| done].
      apply (should_rehash_false_intro t1 Hwf1); [| done].
      rewrite Hcap1. pose proof (grown_pos (capacity t) (vsize_nonneg _)). lia.
    - by rewrite (rehash_throw avail t Hwf Hfail) in Hset. }
  rewrite Ht1 in Hset. simpl in Hset.
  destruct (insert_spec Equal_spec t1 k v Hwf1 Hsr1) as (d & Hd & Hr & Hf & Hu).
  { intros v' Hv'%Hh1. by destruct (Hno v'). }
  rewrite Hr in Hset. injection Hset as <- <-.
  exists t1, d. done.
Qed.

Lemma set_slot_after (t t' : hash_table) avail k v i :
  reachable t → set avail t k v = Ok (i, t') →
  vget (slots t') i = Ok (Slot_of k v) ∧
  get_slot t' k = Ok (Some i) ∧
  size t' = (match get t k with
             | Ok (Some _) => size t
             | _ => size t + 1
             end) ∧
  capacity t ≤ capacity t'.
Proof.
  intros Hreach Hset. pose proof (to_wf t Hreach) as Hwf.
  assert (wf t') as Hwf'.
  { apply to_wf, (reach_set avail t k v t' Hreach). by rewrite Hset. }
  assert (0 ≤ i ∧ holds_at t' (Z.to_nat i) k v ∧
          size t' = (match get t k with
                     | Ok (Some _) => size t
                     | _ => size t + 1
                     end) ∧
          capacity t ≤ capacity t') as (Hi & Hat & Hsize & Hcap).
  { destruct (get_spec Equal_spec t k Hwf) as [(v0 & Hv0 & Hg) | [Hno Hg]];
      rewrite Hg.
    - destruct (get_slot_spec Equal_spec t k Hwf)
        as [(j & v1 & Hj & Hs) | [Hno _]]; [| by destruct (Hno v0)].
      unfold set in Hset. rewrite Hs in Hset. simpl in Hset.
      rewrite (vget_nat _ _ _ Hj) in Hset. simpl in Hset.
      injection Hset as <- <-. split; [lia |]. split; [| split; [done |]].
      + unfold holds_at, vset. simpl. rewrite Nat2Z.id.
        apply list_lookup_insert_eq. by eapply lookup_lt_Some.
      + unfold capacity. simpl. rewrite vsize_vset. lia.
    - destruct (set_new_result t t' avail k v i Hwf Hno Hset)
        as (t1 & d & _ & Hwf1 & _ & Hc1 & Hcap1 & Hd & Hi & -> & Hf & _).
      pose proof (ring_range (Hash k) d (capacity t1) ltac:(lia)) as Hr.
      rewrite <- Hi in Hr. split; [lia |]. split; [| split].
      + unfold holds_at, vset. simpl.
        apply list_lookup_insert_eq. unfold capacity, vsize in Hr. lia.
      + unfold size. simpl. lia.
      + unfold capacity at 2. simpl. rewrite vsize_vset. fold (capacity t1).
        rewrite Hcap1. unfold grown. pose proof (vsize_nonneg (slots t)) as Hp.
        fold (capacity t) in Hp.
        destruct (should_rehash t); [| lia].
        destruct (Z.eqb_spec (capacity t) 0); lia. }
  split; [| split; [| done]].
  - apply vget_Ok. done.
  - destruct (get_slot_spec Equal_spec t' k Hwf')
      as [(j & v1 & Hj & ->) | [Hno _]].
    + pose proof (wf_unique _ Hwf' _ _ _ _ _ Hj Hat) as ->.
      by rewrite Z2Nat.id.
    + destruct (Hno v). by eexists.
Qed.

(** The pointer [set] returns points to the slot that now holds the key
    with the value given, the slot [get_slot] finds afterwards;  the size
    grows by one exactly when the key was not there, and the capacity does
    not shrink. *)
Theorem set_returns_the_slot (t t' : hash_table) avail k v i :
  reachable t → set avail t k v = Ok (i, t') →
  vget (slots t') i = Ok (Slot_of k v) ∧
  get_slot t' k = Ok (Some i) ∧
  size t' = (match get t k with
             | Ok (Some _) => size t
             | _ => size t + 1
             end) ∧
  capacity t ≤ capacity t'.
Proof. apply set_slot_after. Qed.

(** Linear probing: when the table need not grow, [set] stores a new key
    in the first free slot at or after its natural slot, walking forward
    round the slot array, changes no other slot, and raises
    [max_hash_offset] to the number of steps walked if that is more. *)
Theorem set_takes_first_free_slot (t : hash_table) avail k v :
  reachable t → get t k = Ok None → should_rehash t = false →
  ∃ d, 0 ≤ d < capacity t ∧
       key_index t k = Ok (Hash k mod capacity t) ∧
       set avail t k v =
         Ok ((Hash k + d) mod capacity t,
             mkTable (vset (slots t) ((Hash k + d) mod capacity t) (Slot_of k v))
                     (count t + 1) (Z.max (max_hash_offset t) d)) ∧
       free_at t ((Hash k + d) mod capacity t) ∧
       (∀ d', 0 ≤ d' < d → used_at t ((Hash k + d') mod capacity t)).
Proof.
  intros Hreach Hmiss Hsr. pose proof (to_wf t Hreach) as Hwf.
  pose proof (proj1 (get_None Equal_spec t k Hwf) Hmiss) as Hno.
  destruct (insert_spec Equal_spec t k v Hwf Hsr Hno) as (d & Hd & Hr & Hf & Hu).
  destruct (should_rehash_false t Hwf Hsr) as (e & He & Hn & _).
  exists d. split; [done |]. split; [by apply (key_index_Ok t e) |].
  split; [| done].
  by rewrite (set_no_rehash Equal_spec avail t k v Hwf Hno Hsr).
Qed.

(** ** The bounded walk *)

(** The window of the bounded walk misses nothing.  The slot [get_slot]
    returns is in range, holds the key, and lies at most
    [max_hash_offset] steps after the natural slot of the key; and when
    [get_slot] returns [nullptr], no used slot of the whole array holds
    the key. *)
Theorem lookup_window (t : hash_table) k :
  reachable t →
  (∀ i, get_slot t k = Ok (Some i) →
        0 ≤ i < capacity t ∧
        (∃ v, vget (slots t) i = Ok (Slot_of k v)) ∧
        (i - Hash k) mod capacity t ≤ max_hash_offset t ∧
        max_hash_offset t < capacity t) ∧
  (get_slot t k = Ok None →
   ∀ j s, slots t !! j = Some s → used s = true → key (kv s) ≠ k).
Proof.
  intros Hreach. pose proof (to_wf t Hreach) as Hwf.
  destruct (get_slot_spec Equal_spec t k Hwf) as [(j & v & Hj & ->) | [Hno ->]].
  - split; [| done]. intros i [= <-].
    pose proof (holds_at_range t j k v Hj) as Hi.
    split; [done |]. split; [exists v; by apply vget_nat |].
    split; [apply (wf_offset _ Hwf j k v Hj) |].
    destruct (wf_max _ Hwf) as [_ [? | ?]]; lia.
  - split; [done |]. intros _ j s Hs Hu Hk.
    destruct (Hno (value (kv s))). exists j. unfold holds_at.
    rewrite Hs. f_equal. rewrite <- Hk. by apply used_slot_eta.
Qed.

(** ** [operator[]] and the references handed out *)

Lemma store_get (t : hash_table) j k v0 v :
  wf t → holds_at t j k v0 →
  ∃ t', store t (Z.of_nat j) v = Ok t' ∧ wf t' ∧
        count t' = count t ∧
        ∀ k', get t' k' = if Equal k k' then Ok (Some v) else get t k'.
Proof.
  intros Hwf Hj. unfold store. rewrite (vget_nat _ _ _ Hj). simpl.
  fold (Slot_of k v).
  destruct (write_value_wf t j k v0 v Hwf Hj) as [Hwf' Hh].
  eexists. split; [done |]. split; [done |]. split; [done |].
  intros k'. destruct (Equal k k') eqn:E.
  - apply Equal_spec in E as <-. apply (get_Some Equal_spec); [done |].
    apply Hh. by left.
  - assert (k' ≠ k) as Hne.
    { intros ->. by rewrite (proj2 (Equal_spec k k)) in E. }
    apply (get_ext Equal_spec); [done | done |]. intros v'. rewrite Hh.
    split; [by intros [[? _] | [_ H]] | intros H; by right].
Qed.

Lemma subscript_result (t t1 : hash_table) avail k i :
  wf t → reachable t → subscript avail t k = Ok (i, t1) →
  wf t1 ∧ 0 ≤ i ∧
  (∃ v, holds_at t1 (Z.to_nat i) k v ∧
        match get t k with
        | Ok (Some v0) => v = v0 ∧ t1 = t
        | _ => v = default_value ∧ size t1 = size t + 1
        end) ∧
  (∀ k', k' ≠ k → get t1 k' = get t k').
Proof.
  intros Hwf Hreach Hsub. unfold subscript in Hsub.
  destruct (get_slot_spec Equal_spec t k Hwf) as [(j & v & Hj & Hs) | [Hno Hs]];
    rewrite Hs in Hsub; simpl in Hsub.
  - injection Hsub as <- <-. split; [done |]. split; [lia |]. split; [| done].
    exists v. rewrite Nat2Z.id. split; [done |].
    assert (get t k = Ok (Some v)) as ->; [| done].
    apply (get_Some Equal_spec); [done |]. by exists j.
  - destruct (set_slot_after t t1 avail k default_value i Hreach Hsub)
      as (Hv & _ & Hsize & _).
    destruct (set_get Equal_spec avail t t1 k default_value i Hwf Hsub)
      as [Hwf1 Hg].
    rewrite (proj2 (get_None Equal_spec t k Hwf) Hno) in *.
    apply vget_Ok in Hv as [Hi Hv].
    split; [done |]. split; [done |]. split; [by exists default_value |].
    intros k' Hne. rewrite Hg. destruct (Equal k k') eqn:E; [| done].
    apply Equal_spec in E. congruence.
Qed.

(** [operator[]] on a key the table holds returns the slot of that key
    and leaves the table as it is; on a key the table does not hold, when
    it returns, it has stored [Value{}] for the key in the slot it returns,
    the size has grown by one, and every other key is mapped as before. *)
Theorem subscript_inserts_default (t : hash_table) avail k :
  reachable t →
  (∀ v, get t k = Ok (Some v) →
        ∃ i, subscript avail t k = Ok (i, t) ∧
             vget (slots t) i = Ok (Slot_of k v)) ∧
  (get t k = Ok None →
   ∀ i t', subscript avail t k = Ok (i, t') →
           vget (slots t') i = Ok (Slot_of k default_value) ∧
           get t' k = Ok (Some default_value) ∧
           size t' = size t + 1 ∧
           ∀ k', k' ≠ k → get t' k' = get t k').
Proof.
  intros Hreach. pose proof (to_wf t Hreach) as Hwf. split.
  - intros v Hget%(get_Some Equal_spec); [| done].
    destruct (get_slot_spec Equal_spec t k Hwf) as [(j & v1 & Hj & Hs) | [Hno _]];
      [| by destruct (Hno v)].
    assert (holds t k v1) as Hv1 by (by exists j).
    pose proof (holds_functional t k v v1 Hwf Hget Hv1) as <-.
    exists (Z.of_nat j). unfold subscript. rewrite Hs. simpl.
    split; [done | by apply vget_nat].
  - intros Hmiss i t' Hsub.
    destruct (subscript_result t t' avail k i Hwf Hreach Hsub)
      as (Hwf' & Hi & (v & Hat & Hcase) & Hoth).
    rewrite Hmiss in Hcase. destruct Hcase as [-> Hsize].
    split; [by apply vget_Ok |]. split; [| done].
    apply (get_Some Equal_spec); [done |]. by eexists.
Qed.

(** [table[k] = v]: writing through the reference [operator[]] returned
    makes [get(k)] return [v] and changes no other key; the write itself
    changes no size. *)
Theorem subscript_then_assign (t t1 : hash_table) avail k i v :
  reachable t → subscript avail t k = Ok (i, t1) →
  ∃ t2, store t1 i v = Ok t2 ∧
        get t2 k = Ok (Some v) ∧
        (∀ k', k' ≠ k → get t2 k' = get t k') ∧
        size t2 = size t1.
Proof.
  intros Hreach Hsub. pose proof (to_wf t Hreach) as Hwf.
  destruct (subscript_result t t1 avail k i Hwf Hreach Hsub)
    as (Hwf1 & Hi & (v0 & Hat & _) & Hoth).
  destruct (store_get t1 _ k v0 v Hwf1 Hat) as (t2 & Hst & _ & Hc & Hg).
  rewrite Z2Nat.id in Hst by done.
  exists t2. split; [done |]. split; [| split; [| done]].
  - by rewrite Hg, (proj2 (Equal_spec k k)).
  - intros k' Hne. rewrite Hg, <- (Hoth k' Hne).
    destruct (Equal k k') eqn:E; [| done]. apply Equal_spec in E. congruence.
Qed.

(** ** [find] and [erase] *)

(** [find] returns [end()] for a key the table does not hold, and for a
    key it holds a cursor before [end()] that dereferences to the key and
    the value [get] returns. *)
Theorem find_points_at_the_key (t : hash_table) k :
  reachable t →
  ∃ it, find t k = Ok it ∧
        (get t k = Ok None → it = end_ t) ∧
        (∀ v, get t k = Ok (Some v) →
              0 ≤ it < end_ t ∧ deref t it = Ok (mkKeyValue k v)).
Proof.
  intros Hreach. pose proof (to_wf t Hreach) as Hwf.
  unfold find.
  destruct (get_slot_spec Equal_spec t k Hwf) as [(j & v & Hj & ->) | [Hno ->]];
    simpl; eexists; (split; [done |]).
  - split.
    + intros Hmiss.
      destruct (proj1 (get_None Equal_spec t k Hwf) Hmiss v). by exists j.
    + intros v' Hget%(get_Some Equal_spec); [| done].
      assert (holds t k v) as Hv by (by exists j).
      pose proof (holds_functional t k v v' Hwf Hv Hget) as <-.
      pose proof (holds_at_range t j k v Hj) as Hr.
      split; [done |]. unfold deref, assert_. fold (capacity t).
      replace (Z.of_nat j <? capacity t) with true by lia. simpl.
      by rewrite (vget_nat _ _ _ Hj).
  - split; [done |].
    intros v Hget%(get_Some Equal_spec); [| done]. by destruct (Hno v).
Qed.

(** [erase(find(k))] for a key the table holds does what [remove(k)]
    does: the key is gone, the size drops by one and every other key is
    mapped as before.  For a key the table does not hold [find] gives
    [end()], and [erase] of it stops on the [assert] of the dereference. *)
Theorem erase_what_find_found (t : hash_table) k :
  reachable t →
  (∀ v, get t k = Ok (Some v) →
        ∃ it t', find t k = Ok it ∧
                 erase t it = Ok t' ∧
                 remove t k = Ok t' ∧
                 get t' k = Ok None ∧
                 size t' = size t - 1 ∧
                 ∀ k', k' ≠ k → get t' k' = get t k') ∧
  (get t k = Ok None →
   ∃ it, find t k = Ok it ∧ erase t it = Abort).
Proof.
  intros Hreach. pose proof (to_wf t Hreach) as Hwf. split.
  - intros v Hget%(get_Some Equal_spec); [| done].
    destruct (remove_existing Equal_spec t k v Hwf Hget) as (j & Hj & Hr).
    destruct (remove_get Equal_spec t _ k Hwf Hr) as [_ Hg].
    destruct (get_slot_spec Equal_spec t k Hwf) as [(j' & v1 & Hj' & Hs) | [Hno _]];
      [| by destruct (Hno v)].
    pose proof (wf_unique _ Hwf _ _ _ _ _ Hj Hj') as <-.
    pose proof (holds_at_range t j k v Hj) as Hrange.
    eexists (Z.of_nat j), _.
    split; [unfold find; by rewrite Hs |].
    split.
    { unfold erase, deref, assert_. fold (capacity t).
      replace (Z.of_nat j <? capacity t) with true by lia. simpl.
      rewrite (vget_nat _ _ _ Hj). simpl. exact Hr. }
    split; [done |]. split; [| split; [done |]].
    + by rewrite Hg, (proj2 (Equal_spec k k)).
    + intros k' Hne. rewrite Hg. destruct (Equal k k') eqn:E; [| done].
      apply Equal_spec in E. congruence.
  - intros Hmiss.
    destruct (get_slot_spec Equal_spec t k Hwf) as [(j & v & Hj & _) | [_ Hs]].
    { destruct (proj1 (get_None Equal_spec t k Hwf) Hmiss v). by exists j. }
    exists (end_ t). split; [unfold find; by rewrite Hs |].
    unfold erase, deref, assert_, end_.
    by replace (vsize (slots t) <? vsize (slots t)) with false by lia.
Qed.

(** ** Cursors *)

Lemma wf_vsize_small (t : hash_table) : wf t → vsize (slots t) < 2 ^ 64.
Proof.
  intros Hwf. fold (capacity t).
  destruct (is_capacity_cases _ (wf_capacity _ Hwf)) as [Hn | [Hn _]]; lia.
Qed.

(** The loop of [begin()] and [operator++] stops at the first used slot
    from where it starts, or at the end of the slot array. *)
Lemma skip_unused_spec (t : hash_table) :
  vsize (slots t) < 2 ^ 64 →
  ∀ n p fuel,
    (p + n = length (slots t))%nat → (n ≤ fuel)%nat →
    ∃ q, skip_unused t fuel (Z.of_nat p) = Ok (Z.of_nat q) ∧
         (p ≤ q ≤ length (slots t))%nat ∧
         (∀ j, (p ≤ j < q)%nat → ∃ s, slots t !! j = Some s ∧ used s = false) ∧
         ((q < length (slots t))%nat →
          ∃ s, slots t !! q = Some s ∧ used s = true).
Proof.
  intros Hsize. unfold vsize in Hsize.
  induction n as [| n IH]; intros p fuel Hp Hfuel.
  - exists p. split; [| split; [lia | split; [intros; lia | lia]]].
    destruct fuel; simpl; unfold vsize;
      by replace (Z.of_nat p <? Z.of_nat (length (slots t))) with false by lia.
  - destruct (lookup_lt_is_Some_2 (slots t) p) as [s Hs]; [lia |].
    destruct fuel as [| fuel]; [lia |].
    simpl. unfold vsize at 1.
    replace (Z.of_nat p <? Z.of_nat (length (slots t))) with true by lia.
    rewrite (vget_nat _ _ _ Hs). simpl. destruct (used s) eqn:Hu; simpl.
    + exists p. split; [done |]. split; [lia |].
      split; [intros; lia | intros _; by exists s].
    + replace (wrap (Z.of_nat p + 1)) with (Z.of_nat (S p))
        by (rewrite wrap_small; lia).
      destruct (IH (S p) fuel) as (q & Hr & Hq & Hfree & Hused); [lia | lia |].
      exists q. split; [done |]. split; [lia |]. split; [| done].
      intros j Hj. destruct (decide (j = p)) as [-> | Hne]; [by exists s |].
      apply Hfree. lia.
Qed.

Lemma all_free_count (v : list (@Slot Key Value)) :
  (∀ j s, v !! j = Some s → used s = false) → count_used v = 0.
Proof.
  induction v as [| s v IH]; intros Hfree; [done |].
  rewrite count_used_cons, (Hfree 0%nat s eq_refl), IH; [done |].
  intros j s' Hj. by apply (Hfree (S j)).
Qed.

(** [begin()] returns the cursor of the first used slot: the slots before
    it are free, and it is [end()] exactly when the table is [empty()]. *)
Theorem begin_is_first_used_slot (t : hash_table) :
  reachable t →
  ∃ it, begin_ t = Ok it ∧
        0 ≤ it ≤ end_ t ∧
        (∀ j, 0 ≤ j < it → free_at t j) ∧
        (it < end_ t → used_at t it) ∧
        (it = end_ t ↔ empty t = true).
Proof.
  intros Hreach. pose proof (to_wf t Hreach) as Hwf.
  destruct (skip_unused_spec t (wf_vsize_small t Hwf)
              (length (slots t)) 0%nat (length (slots t)))
    as (q & Hr & Hq & Hfree & Hused); [lia | lia |].
  exists (Z.of_nat q). unfold begin_, end_, vsize, empty, size.
  split; [done |]. split; [lia |]. split; [| split].
  - intros j Hj. apply Hfree. lia.
  - intros Hlt. rewrite <- (Nat2Z.id q) in Hused. apply Hused. lia.
  - split.
    + intros Hend. apply Z.eqb_eq. rewrite (wf_count _ Hwf).
      apply all_free_count. intros j s Hj.
      destruct (Hfree j) as (s' & Hs' & Hu').
      { apply lookup_lt_Some in Hj. lia. }
      congruence.
    + intros Hempty%Z.eqb_eq.
      destruct (decide (q = length (slots t))) as [-> | Hne]; [done |].
      destruct Hused as (s & Hs & Hu); [lia |].
      destruct (used_not_free t (Z.of_nat q)).
      * exists s. by rewrite Nat2Z.id.
      * apply count_zero_free; [done | done |]. unfold capacity, vsize. lia.
Qed.

(** [operator++] on a cursor before [end()] returns the cursor of the
    next used slot, or [end()] when no used slot follows; the slots it
    passes are free. *)
Theorem increment_is_next_used_slot (t : hash_table) it :
  reachable t → 0 ≤ it < end_ t →
  ∃ it', incr t it = Ok it' ∧
         it < it' ≤ end_ t ∧
         (∀ j, it < j < it' → free_at t j) ∧
         (it' < end_ t → used_at t it').
Proof.
  intros Hreach Hit. pose proof (to_wf t Hreach) as Hwf.
  pose proof (wf_vsize_small t Hwf) as Hsize.
  unfold end_, vsize in *.
  destruct (skip_unused_spec t Hsize
              (length (slots t) - S (Z.to_nat it)) (S (Z.to_nat it))
              (length (slots t)))
    as (q & Hr & Hq & Hfree & Hused); [lia | lia |].
  exists (Z.of_nat q). unfold incr, assert_, vsize.
  replace (it <? Z.of_nat (length (slots t))) with true by lia. simpl.
  replace (wrap (it + 1)) with (Z.of_nat (S (Z.to_nat it)))
    by (rewrite wrap_small; lia).
  split; [done |]. split; [lia |]. split.
  - intros j Hj. apply Hfree. lia.
  - intros Hlt. rewrite <- (Nat2Z.id q) in Hused. apply Hused. lia.
Qed.

(** A range-for yields the pairs of the used slots in the order of the
    slot array: neither insertion order nor key order. *)
Theorem iteration_in_slot_order (t : hash_table) :
  reachable t →
  items t = Ok (List.map kv (List.filter used (slots t))).
Proof. intros Hwf%to_wf. by apply items_contents. Qed.

(** [empty()] holds exactly when every [get] misses, and exactly when a
    range-for yields nothing. *)
Theorem empty_means_no_key (t : hash_table) :
  reachable t →
  (empty t = true ↔ ∀ k, get t k = Ok None) ∧
  (empty t = true ↔ items t = Ok []).
Proof.
  intros Hwf%to_wf.
  assert (empty t = true ↔ contents t = []) as Hempty.
  { unfold empty, size. rewrite Z.eqb_eq, (wf_count _ Hwf).
    unfold count_used, contents.
    destruct (List.filter used (slots t)); simpl; split; (done || lia). }
  split.
  - rewrite Hempty. split.
    + intros Hnil k. apply (get_None Equal_spec); [done |].
      intros v Hv%elem_of_contents. rewrite Hnil in Hv. by apply elem_of_nil in Hv.
    + intros Hmiss. destruct (contents t) as [| [k v] l] eqn:E; [done |].
      assert (holds t k v) as Hv.
      { apply elem_of_contents. rewrite E. apply list_elem_of_here. }
      apply (get_Some Equal_spec) in Hv; [| done]. rewrite Hmiss in Hv. done.
  - rewrite Hempty, (items_contents t Hwf). split; [by intros -> | by intros [= ->]].
Qed.

(** ** Sizing at construction *)

Lemma pow2_eighth e : 3 ≤ e ≤ 61 → ∃ q, 1 ≤ q ∧ 2 ^ e = 8 * q.
Proof.
  intros H. exists (2 ^ (e - 3)). split.
  - change 1 with (2 ^ 0). apply Z.pow_le_mono_r; lia.
  - change 8 with (2 ^ 3). rewrite <- Z.pow_add_r by lia. f_equal. lia.
Qed.

Lemma presize_fit avail n (t : hash_table) :
  0 ≤ n < 2 ^ 62 →
  hash_table_with_capacity avail n = Ok t →
  (∃ e, 3 ≤ e ∧ capacity t = 2 ^ e) ∧
  n ≤ capacity t * 3 / 4 ∧
  (8 < capacity t → capacity t / 2 * 3 / 4 < n) ∧
  size t = 0 ∧
  ∀ k, get t k = Ok None.
Proof.
  intros Hn Hr.
  destruct (with_capacity_ok avail n t Hr)
    as (Hwf & Hc & _ & e & He & Hcap & Hcover & Hmin).
  rewrite (wrap_small (n * 4)) in * by lia.
  rewrite (wrap_small (n * 4 + 2)) in * by lia.
  destruct (pow2_eighth e He) as (q & Hq & Hpow).
  pose proof (Z.div_mod (n * 4 + 2) 3 ltac:(lia)) as Hdiv.
  pose proof (Z.mod_pos_bound (n * 4 + 2) 3 ltac:(lia)) as Hmod.
  rewrite Hcap, Hpow.
  split; [exists e; split; [lia | done] |].
  replace (8 * q * 3) with (6 * q * 4) by lia. rewrite Z.div_mul by lia.
  replace (8 * q) with (4 * q * 2) by lia. rewrite Z.div_mul by lia.
  replace (4 * q * 3) with (3 * q * 4) by lia. rewrite Z.div_mul by lia.
  split; [lia |]. split; [| split; [done |]].
  - intros Hbig.
    assert (3 < e) as He3.
    { destruct (Z_lt_ge_dec 3 e); [done |]. assert (e = 3) as -> by lia.
      change (2 ^ 3) with 8 in Hpow. lia. }
    specialize (Hmin He3).
    assert (2 ^ e = 2 ^ (e - 1) * 2) as H2.
    { rewrite <- (Z.pow_1_r 2) at 3. rewrite <- Z.pow_add_r by lia.
      f_equal. lia. }
    lia.
  - intros k. apply (get_None Equal_spec); [done |].
    intros v. by apply count_zero_no_holds.
Qed.

(** For a hint [n] that [n * 4 + 2] does not wrap, the pre-sizing
    constructor, when it returns, gives an empty table whose capacity is
    the least power of two, 8 or more, that holds [n] entries within three
    quarters of its slots. *)
Theorem presize_fits_the_hint avail n (t : hash_table) :
  0 ≤ n < 2 ^ 62 →
  hash_table_with_capacity avail n = Ok t →
  (∃ e, 3 ≤ e ∧ capacity t = 2 ^ e) ∧
  n ≤ capacity t * 3 / 4 ∧
  (8 < capacity t → capacity t / 2 * 3 / 4 < n) ∧
  size t = 0 ∧
  ∀ k, get t k = Ok None.
Proof. apply presize_fit. Qed.

(** When the room is there, a run of [set] calls neither rehashes nor
    allocates: it returns whatever the allocator would grant. *)
Lemma set_each_no_growth avail (elems : list KeyValue) :
  ∀ t : hash_table,
    wf t → capacity t ≠ 0 →
    4 * (count t + Z.of_nat (length elems)) ≤ 3 * capacity t →
    ∃ t', set_each avail t elems = Ok t' ∧
          wf t' ∧
          capacity t' = capacity t ∧
          count t' ≤ count t + Z.of_nat (length elems) ∧
          ∀ k, get t' k = match last_set (calls_of elems) k with
                          | Some v => Ok (Some v)
                          | None => get t k
                          end.
Proof.
  induction elems as [| [k0 v0] rest IH]; intros t Hwf Hcap Hroom.
  - exists t. simpl. split; [done |]. split; [done |]. split; [done |].
    split; [lia | done].
  - simpl in Hroom |- *.
    assert (∃ i t1, set avail t k0 v0 = Ok (i, t1) ∧ wf t1 ∧
                    capacity t1 = capacity t ∧ count t1 ≤ count t + 1)
      as (i & t1 & Hset & Hwf1 & Hcap1 & Hc1).
    { destruct (holds_dec Equal_spec t k0 Hwf) as [[v Hv] | Hno].
      - destruct (set_existing Equal_spec avail t k0 v0 v Hwf Hv)
          as (i & t1 & Hr & Hwf1 & Hcap1 & Hc1 & _).
        exists i, t1. split; [done |]. split; [done |]. split; [done | lia].
      - assert (should_rehash t = false) as Hsr
          by (apply should_rehash_false_intro; [done | done | lia]).
        destruct (set_new Equal_spec avail t k0 v0 Hwf Hno (or_introl Hsr))
          as (i & t1 & Hr & Hwf1 & Hcap1 & Hc1 & _).
        rewrite Hsr in Hcap1.
        exists i, t1. split; [done |]. split; [done |]. split; [done | lia]. }
    rewrite Hset. simpl.
    destruct (set_get Equal_spec avail t t1 k0 v0 i Hwf Hset) as [_ Hg1].
    destruct (IH t1 Hwf1) as (t' & Hr & Hwf' & Hcap' & Hc' & Hg'); [lia | lia |].
    exists t'. split; [done |]. split; [done |]. split; [lia |].
    split; [lia |].
    intros k. rewrite Hg'. destruct (last_set (calls_of rest) k); [done |].
    rewrite Hg1. by destruct (Equal k0 k).
Qed.

Lemma presized_no_growth avail avail' n
    (t : hash_table) (elems : list KeyValue) :
  0 ≤ n < 2 ^ 62 →
  hash_table_with_capacity avail n = Ok t →
  Z.of_nat (length elems) ≤ n →
  ∃ t', set_each avail' t elems = Ok t' ∧
        capacity t' = capacity t ∧
        size t' ≤ capacity t' * 3 / 4 ∧
        ∀ k, get t' k = Ok (last_set (calls_of elems) k).
Proof.
  intros Hn Hr Hlen.
  destruct (presize_fit avail n t Hn Hr)
    as ((e & He & Hcap) & Hfit & _ & Hsize & Hmiss).
  destruct (with_capacity_ok avail n t Hr) as (Hwf & Hc & _ & e' & He' & Hcap' & _).
  destruct (pow2_quarter e' He') as (q & Hq & Hpow).
  rewrite Hcap', Hpow in Hfit.
  replace (4 * q * 3) with (3 * q * 4) in Hfit by lia.
  rewrite Z.div_mul in Hfit by lia.
  destruct (set_each_no_growth avail' elems t Hwf)
    as (t' & Hr' & Hwf' & Hcapeq & Hc' & Hg); [lia | lia |].
  exists t'. split; [done |]. split; [done |]. split.
  - rewrite Hcapeq, Hcap', Hpow.
    replace (4 * q * 3) with (3 * q * 4) by lia.
    rewrite Z.div_mul by lia. unfold size. lia.
  - intros k. rewrite Hg, Hmiss. by destruct (last_set (calls_of elems) k).
Qed.

(** A table pre-sized for [n] entries takes any [n] calls of [set]
    without growing: the calls return even when the allocator grants
    nothing, the capacity stays, and afterwards [get] returns for each key
    the value of its last call. *)
Theorem presized_table_does_not_grow avail avail' n
    (t : hash_table) (elems : list KeyValue) :
  0 ≤ n < 2 ^ 62 →
  hash_table_with_capacity avail n = Ok t →
  Z.of_nat (length elems) ≤ n →
  ∃ t', set_each avail' t elems = Ok t' ∧
        capacity t' = capacity t ∧
        size t' ≤ capacity t' * 3 / 4 ∧
        ∀ k, get t' k = Ok (last_set (calls_of elems) k).
Proof. apply presized_no_growth. Qed.


(** The hint is multiplied by 4 in [std::size_t]: a hint of [2 ^ 62] or
    more wraps, and the constructor sizes the table as for the hint less
    [2 ^ 62]. *)
Theorem capacity_hint_wraps avail n :
  @hash_table_with_capacity Key Value Ops avail (n + 2 ^ 62)
  = hash_table_with_capacity avail n.
Proof.
  unfold hash_table_with_capacity.
  replace (wrap ((n + 2 ^ 62) * 4)) with (wrap (n * 4)); [done |].
  unfold wrap, size_t_bits.
  replace ((n + 2 ^ 62) * 4) with (n * 4 + 1 * 2 ^ 64) by lia.
  by rewrite Z.mod_add by lia.
Qed.

(** ** [rehash] *)

(** [rehash], when it returns, has kept the size and the value of every
    key, has strictly more slots, and leaves room: [should_rehash()] is
    false afterwards. *)
Theorem rehash_keeps_the_entries avail (t t' : hash_table) :
  reachable t → rehash avail t = Ok t' →
  size t' = size t ∧
  capacity t < capacity t' ∧
  should_rehash t' = false ∧
  ∀ k, get t' k = get t k.
Proof.
  intros Hwf%to_wf Hr.
  assert (Decision (grown (capacity t) ≤ avail ∧
                    grown (capacity t) ≤ vector_max_size)) as [[Hav Hmax] | Hfail]
    by apply _.
  2:{ by rewrite (rehash_throw avail t Hwf Hfail) in Hr. }
  destruct (rehash_ok Equal_spec avail t Hwf Hav Hmax)
    as (t0 & Hr0 & Hwf' & Hcap & Hc & Hload & Hh).
  rewrite Hr in Hr0. injection Hr0 as <-.
  pose proof (grown_pos (capacity t) (vsize_nonneg _)) as Hpos.
  split; [done |]. split; [| split].
  - rewrite Hcap. unfold grown. pose proof (vsize_nonneg (slots t)) as Hp.
    fold (capacity t) in Hp. destruct (Z.eqb_spec (capacity t) 0); lia.
  - apply should_rehash_false_intro; [done | lia | done].
  - intros k. apply (get_ext Equal_spec); [done | done |]. intros v. apply Hh.
Qed.

(** ** What a free slot holds *)

Lemma bind_Ok {A B : Type} (m : @result Key Value A) (f : A → result B) b :
  bind m f = Ok b → ∃ a, m = Ok a ∧ f a = Ok b.
Proof. destruct m; simpl; intros H; try done. eauto. Qed.

Lemma unused_all_nil (P : Slot → Prop) : unused_all P ([] : list (@Slot Key Value)).
Proof. by intros j s. Qed.

Lemma unused_all_vset (P : Slot → Prop) (v : list (@Slot Key Value)) i s :
  unused_all P v → used s = true ∨ P s → unused_all P (vset v i s).
Proof.
  intros Hv Hs j s' Hj Hu. unfold vset in Hj.
  apply list_lookup_insert_Some in Hj as [(_ & <- & _) | [_ Hj]].
  - destruct Hs as [Hs | Hs]; [congruence | done].
  - by apply (Hv j).
Qed.

Lemma unused_all_resize (P : Slot → Prop) avail n (s : list (@Slot Key Value)) :
  P Slot_empty → resize avail [] n = Some s → unused_all P s.
Proof.
  intros HP. unfold resize. destruct (n <=? vsize []).
  - intros [= <-]. rewrite take_nil. apply unused_all_nil.
  - destruct ((n <=? avail) && (n <=? vector_max_size)); [| done].
    intros [= <-]. simpl. by intros j s [-> _]%lookup_replicate _.
Qed.

Lemma insert_slots (t t' : hash_table) k v i :
  insert_nonexistent_norehash t k v = Ok (i, t') →
  slots t' = vset (slots t) i (Slot_of k v).
Proof.
  unfold insert_nonexistent_norehash. intros H.
  apply bind_Ok in H as (u1 & _ & H). apply bind_Ok in H as (u2 & _ & H).
  apply bind_Ok in H as (r & _ & H). apply bind_Ok in H as (u3 & _ & H).
  apply bind_Ok in H as (i1 & _ & H). apply bind_Ok in H as ([i0 off] & _ & H).
  apply bind_Ok in H as (s & _ & H). apply bind_Ok in H as (u4 & _ & H).
  by injection H as <- <-.
Qed.

Lemma reinsert_unused (P : Slot → Prop) (old : list Slot) :
  ∀ t t' : hash_table,
    reinsert old t = Ok t' → unused_all P (slots t) → unused_all P (slots t').
Proof.
  induction old as [| slot rest IH]; intros t t' H Hc; simpl in H.
  - by injection H as <-.
  - destruct (used slot); [| by apply (IH t t')].
    apply bind_Ok in H as ([i t1] & Hins & H). simpl in H.
    apply (IH t1 t' H). rewrite (insert_slots _ _ _ _ _ Hins).
    apply unused_all_vset; [done | by left].
Qed.

(** [rehash] builds the new array from value-initialised slots and the
    used slots of the old one: what a free slot of the old array held is
    dropped. *)
Lemma rehash_unused (P : Slot → Prop) avail (t t' : hash_table) :
  P Slot_empty → rehash avail t = Ok t' → unused_all P (slots t').
Proof.
  intros HP. unfold rehash. simpl.
  destruct (resize avail [] _) as [s |] eqn:Hs; [| done].
  intros H. apply (reinsert_unused P _ _ _ H). simpl.
  by eapply unused_all_resize.
Qed.

Lemma set_unused (P : Slot → Prop) avail (t t' : hash_table) k v :
  P Slot_empty → wf t → unused_all P (slots t) →
  table_after (set avail t k v) = Some t' → unused_all P (slots t').
Proof.
  intros HP Hwf Hc Hafter.
  destruct (set_outcome Equal_spec avail t k v Hwf)
    as [(i & t1 & Hr & _) | [Hr _]]; rewrite Hr in Hafter; simpl in Hafter;
    injection Hafter as <-; [| apply unused_all_nil].
  destruct (holds_dec Equal_spec t k Hwf) as [[v0 Hv0] | Hno].
  - destruct (get_slot_spec Equal_spec t k Hwf) as [(j & v1 & Hj & Hs) | [Hno _]];
      [| by destruct (Hno v0)].
    unfold set in Hr. rewrite Hs in Hr. simpl in Hr.
    rewrite (vget_nat _ _ _ Hj) in Hr. simpl in Hr.
    injection Hr as <- <-. simpl.
    apply unused_all_vset; [done | by left].
  - rewrite (set_new_unfold Equal_spec avail t k v Hwf Hno) in Hr.
    apply bind_Ok in Hr as (t0 & Ht0 & Hins).
    rewrite (insert_slots _ _ _ _ _ Hins).
    apply unused_all_vset; [| by left].
    destruct (should_rehash t); [by apply (rehash_unused P avail t) |].
    by injection Ht0 as <-.
Qed.

Lemma subscript_unused (P : Slot → Prop) avail (t t' : hash_table) k :
  P Slot_empty → wf t → unused_all P (slots t) →
  table_after (subscript avail t k) = Some t' → unused_all P (slots t').
Proof.
  intros HP Hwf Hc Hr. unfold subscript in Hr.
  destruct (get_slot_spec Equal_spec t k Hwf) as [(j & v1 & Hj & Hs) | [_ Hs]];
    rewrite Hs in Hr; simpl in Hr.
  - by injection Hr as <-.
  - by apply (set_unused P avail t t' k default_value).
Qed.

(** [remove] assigns [Slot()] to the slot it frees. *)
Lemma remove_unused (P : Slot → Prop) (t t' : hash_table) k :
  P Slot_empty → wf t → unused_all P (slots t) →
  remove t k = Ok t' → unused_all P (slots t').
Proof.
  intros HP Hwf Hc Hr.
  destruct (holds_dec Equal_spec t k Hwf) as [[v0 Hv0] | Hno].
  - destruct (remove_existing Equal_spec t k v0 Hwf Hv0) as (j & _ & Hrem).
    rewrite Hrem in Hr. injection Hr as <-. simpl.
    apply unused_all_vset; [done | by right].
  - rewrite (remove_absent Equal_spec t k Hwf Hno) in Hr.
    by injection Hr as <-.
Qed.

Lemma erase_unused (P : Slot → Prop) (t t' : hash_table) it :
  P Slot_empty → wf t → unused_all P (slots t) →
  erase t it = Ok t' → unused_all P (slots t').
Proof.
  intros HP Hwf Hc Hr. unfold erase, deref in Hr.
  apply bind_Ok in Hr as (kv0 & _ & Hr).
  by apply (remove_unused P t t' (key kv0)).
Qed.

(** A write through a pointer or an iterator changes the value of the
    slot only: it leaves the key of a free slot as it is, and the free
    slots as they are when the slot written to is used. *)
Lemma store_slots (t t' : hash_table) i v :
  store t i v = Ok t' →
  ∃ s, slots t !! Z.to_nat i = Some s ∧
       slots t' = vset (slots t) i (mkSlot (mkKeyValue (key (kv s)) v) (used s)).
Proof.
  unfold store. intros Hr. apply bind_Ok in Hr as (s & [_ Hs]%vget_Ok & Hr).
  injection Hr as <-. by exists s.
Qed.

Lemma store_unused_keys (t t' : hash_table) i v :
  unused_keys_cleared (slots t) → store t i v = Ok t' →
  unused_keys_cleared (slots t').
Proof.
  intros Hc (s & Hs & ->)%store_slots.
  apply unused_all_vset; [done |]. simpl.
  destruct (used s) eqn:Hu; [by left | right]. by apply (Hc _ s Hs).
Qed.

Lemma store_used_unused (P : Slot → Prop) (t t' : hash_table) i v :
  used_at t i → unused_all P (slots t) → store t i v = Ok t' →
  unused_all P (slots t').
Proof.
  intros (s0 & Hs0 & Hu) Hc (s & Hs & ->)%store_slots.
  apply unused_all_vset; [done | left]. simpl. congruence.
Qed.

(** A write to the value of a free slot, through a pointer or an
    iterator kept across the removal of its entry, goes through: the table
    maps every key as before, and the free slot holds the value. *)
Lemma store_free (t : hash_table) i v :
  wf t → 0 ≤ i → free_at t i →
  ∃ t', store t i v = Ok t' ∧ wf t' ∧ count t' = count t ∧
        (∀ k, get t' k = get t k) ∧
        free_at t' i ∧
        (v ≠ default_value → ¬ unused_cleared (slots t')).
Proof.
  intros Hwf Hi (s & Hs & Hu). unfold store.
  rewrite (proj2 (vget_Ok (slots t) i s) (conj Hi Hs)). simpl. rewrite Hu.
  destruct (write_free_wf t _ s (mkSlot (mkKeyValue (key (kv s)) v) false)
              Hwf Hs Hu eq_refl) as [Hwf' Hat].
  rewrite Z2Nat.id in Hwf', Hat by done.
  eexists. split; [done |]. split; [done |]. split; [done |].
  assert (length (slots t) > Z.to_nat i)%nat as Hlen
    by (apply lookup_lt_Some in Hs; lia).
  split; [| split].
  - intros k. apply (get_ext Equal_spec); [done | done |].
    intros v'. split; intros [j Hj]; exists j; by apply Hat.
  - exists (mkSlot (mkKeyValue (key (kv s)) v) false). split; [| done].
    simpl. unfold vset. apply list_lookup_insert_eq. lia.
  - intros Hv Hc. apply Hv.
    assert (mkSlot (mkKeyValue (key (kv s)) v) false
            = @Slot_empty Key Value Ops) as Heq; [| by injection Heq].
    apply (Hc (Z.to_nat i)); [| done]. simpl. unfold vset.
    apply list_lookup_insert_eq. lia.
Qed.

Lemma with_capacity_unused (P : Slot → Prop) avail n (t : hash_table) :
  P Slot_empty → hash_table_with_capacity avail n = Ok t →
  unused_all P (slots t).
Proof.
  intros HP Hr. unfold hash_table_with_capacity in Hr.
  apply bind_Ok in Hr as (c & _ & Hr). simpl in Hr.
  destruct (resize avail [] c) as [s |] eqn:Hs; [| done].
  injection Hr as <-. simpl. by apply (unused_all_resize P avail c).
Qed.

(** In every reachable state a slot that is not used holds [Key{}]. *)
Lemma reachable_keys_cleared (t : hash_table) :
  reachable t → unused_keys_cleared (slots t).
Proof.
  set (Pk := λ s : @Slot Key Value, key (kv s) = default_key).
  induction 1 as [| avail n t Hn Hr | t _ IH | t _ IH | t1 t2 _ IH1 _ IH2
                  | t1 t2 _ IH1 _ IH2 | t _ IH | avail t k v t' Hreach IH Hr
                  | avail t k t' Hreach IH Hr | t i v t' Hreach IH Hr
                  | t k t' Hreach IH Hr | t it t' Hreach IH Hr].
  - apply unused_all_nil.
  - by apply (with_capacity_unused Pk avail n).
  - done.
  - apply unused_all_nil.
  - done.
  - done.
  - apply unused_all_nil.
  - by apply (set_unused Pk avail t t' k v eq_refl (to_wf t Hreach)).
  - by apply (subscript_unused Pk avail t t' k eq_refl (to_wf t Hreach)).
  - by apply (store_unused_keys t t' i v).
  - pose proof (to_wf t Hreach) as Hwf.
    destruct (remove_ok Equal_spec t k Hwf) as (t1 & Hrem & _).
    rewrite Hrem in Hr. injection Hr as <-.
    by apply (remove_unused Pk t t1 k).
  - pose proof (to_wf t Hreach) as Hwf.
    unfold erase, deref, assert_ in Hr.
    destruct (it <? vsize (slots t)); simpl in Hr; [| done].
    destruct (vget_cases (slots t) it) as [[s Hs] | Hs]; rewrite Hs in Hr;
      simpl in Hr; [| done].
    destruct (remove_ok Equal_spec t (key (kv s)) Hwf) as (t1 & Hrem & _).
    rewrite Hrem in Hr. injection Hr as <-.
    by apply (remove_unused Pk t t1 (key (kv s))).
Qed.

(** What a slot that is not used holds.  In every reachable state it
    holds [Key{}].  It holds [Value{}] too, as [Slot()] makes it, in a
    table the pre-sizing constructor returns and after a [rehash]; and
    [set], [operator[]], [remove], [erase] and a write to the value of a
    used slot keep the free slots so, [remove] by assigning [Slot()] to
    the slot it frees.  Only a write to the value of a free slot, through
    a pointer or an iterator kept across the removal of its entry, puts a
    value there: the code does not check it, the write goes through, and
    the table maps every key as before. *)
Theorem unused_slots_are_cleared (t : hash_table) :
  reachable t →
  unused_keys_cleared (slots t) ∧
  (∀ avail t', rehash avail t = Ok t' → unused_cleared (slots t')) ∧
  (∀ avail n t', @hash_table_with_capacity Key Value Ops avail n = Ok t' →
                 unused_cleared (slots t')) ∧
  (unused_cleared (slots t) →
   (∀ avail k v t', table_after (set avail t k v) = Some t' →
                    unused_cleared (slots t')) ∧
   (∀ avail k t', table_after (subscript avail t k) = Some t' →
                  unused_cleared (slots t')) ∧
   (∀ k t', remove t k = Ok t' → unused_cleared (slots t')) ∧
   (∀ it t', erase t it = Ok t' → unused_cleared (slots t')) ∧
   (∀ i v t', used_at t i → store t i v = Ok t' → unused_cleared (slots t'))) ∧
  (∀ i v, 0 ≤ i → free_at t i →
          ∃ t', store t i v = Ok t' ∧
                count t' = count t ∧
                (∀ k, get t' k = get t k) ∧
                free_at t' i ∧
                (v ≠ default_value → ¬ unused_cleared (slots t'))).
Proof.
  intros Hreach. pose proof (to_wf t Hreach) as Hwf.
  split; [by apply reachable_keys_cleared |].
  split; [intros avail t'; by apply rehash_unused |].
  split; [intros avail n t'; by apply with_capacity_unused |].
  split.
  - intros Hc. split; [intros avail k v t'; by apply set_unused |].
    split; [intros avail k t'; by apply subscript_unused |].
    split; [intros k t'; by apply remove_unused |].
    split; [intros it t'; by apply erase_unused |].
    intros i v t' Hu. by apply store_used_unused.
  - intros i v Hi Hf.
    destruct (store_free t i v Hwf Hi Hf) as (t' & Hr & _ & Hc & Hg & Hf' & Hn).
    by exists t'.
Qed.

(** [erase] through a cursor that points at a free slot (a cursor kept
    across the removal of its entry, say) reads [Key{}] there and removes
    the entry of that key, if the table holds one. *)
Theorem erase_at_a_free_slot (t : hash_table) it :
  reachable t → 0 ≤ it < end_ t → free_at t it →
  erase t it = remove t default_key.
Proof.
  intros Hreach Hit (s & Hs & Hu).
  pose proof (reachable_keys_cleared t Hreach _ s Hs Hu) as Hk.
  unfold erase, deref, assert_. unfold end_ in Hit.
  replace (it <? vsize (slots t)) with true by lia. simpl.
  assert (vget (slots t) it = Ok s) as ->; [| simpl; by rewrite Hk].
  apply vget_Ok. split; [lia | done].
Qed.

End More.

(** ** The further properties on the table of integers *)

Lemma thrice_reachable : reachable thrice.
Proof.
  apply (set_each_reachable 8 [mkKeyValue 1 10; mkKeyValue 2 20; mkKeyValue 1 11]
           hash_table_new).
  - apply reach_new.
  - by vm_compute.
Qed.

Lemma load_leaves_a_free_slot_witness :
  (capacity seven = 0 ∧ count seven = 0)
  ∨ (8 ≤ capacity seven ∧
     count seven ≤ capacity seven * 3 / 4 + 1 ∧
     count seven < capacity seven ∧
     ∃ i, 0 ≤ i < capacity seven ∧ free_at seven i).
Proof.
  apply (load_leaves_a_free_slot plain_ints_Equal_spec seven).
  exact seven_reachable.
Defined.

Lemma operations_return_witness :
  (∃ r, get_slot seven 3 = Ok r) ∧
  (∃ r, get seven 3 = Ok r) ∧
  (∃ it, find seven 3 = Ok it) ∧
  (∃ t', remove seven 3 = Ok t') ∧
  (∃ l, items seven = Ok l) ∧
  ((∃ i t', set 16 seven 3 33 = Ok (i, t')) ∨ set 16 seven 3 33 = Throw (clear seven)) ∧
  ((∃ i t', subscript 16 seven 3 = Ok (i, t'))
   ∨ subscript 16 seven 3 = Throw (clear seven)).
Proof.
  apply (operations_return plain_ints_Equal_spec seven 16 3 33).
  exact seven_reachable.
Defined.

Lemma remove_twice_witness :
  (get seven 9 = Ok None → remove seven 9 = Ok seven) ∧
  (∀ t', remove seven 9 = Ok t' → remove t' 9 = Ok t').
Proof.
  apply (remove_twice plain_ints_Equal_spec seven 9).
  exact seven_reachable.
Defined.

Lemma remove_frees_one_slot_witness :
  ∃ i t', get_slot seven 3 = Ok (Some i) ∧
          remove seven 3 = Ok t' ∧
          slots t' = vset (slots seven) i Slot_empty ∧
          vget (slots seven) i = Ok (Slot_of 3 30) ∧
          size t' = size seven - 1 ∧
          capacity t' = capacity seven ∧
          max_hash_offset t' = max_hash_offset seven.
Proof.
  apply (remove_frees_one_slot plain_ints_Equal_spec seven 3 30).
  - exact seven_reachable.
  - reflexivity.
Defined.

Lemma set_overwrites_in_place_witness :
  ∃ i, get_slot seven 3 = Ok (Some i) ∧
       vget (slots seven) i = Ok (Slot_of 3 30) ∧
       set 0 seven 3 31 =
         Ok (i, mkTable (vset (slots seven) i (Slot_of 3 31))
                        (count seven) (max_hash_offset seven)).
Proof.
  apply (set_overwrites_in_place plain_ints_Equal_spec seven 0 3 30 31).
  - exact seven_reachable.
  - reflexivity.
Defined.

Lemma set_returns_the_slot_witness :
  vget (slots eight) 8 = Ok (Slot_of 8 80) ∧
  get_slot eight 8 = Ok (Some 8) ∧
  size eight = (match get seven 8 with
                | Ok (Some _) => size seven
                | _ => size seven + 1
                end) ∧
  capacity seven ≤ capacity eight.
Proof.
  apply (set_returns_the_slot plain_ints_Equal_spec seven eight 16 8 80 8).
  - exact seven_reachable.
  - reflexivity.
Defined.

Lemma set_takes_first_free_slot_witness :
  ∃ d, 0 ≤ d < capacity thrice ∧
       key_index thrice 9 = Ok (Hash 9 mod capacity thrice) ∧
       set 0 thrice 9 90 =
         Ok ((Hash 9 + d) mod capacity thrice,
             mkTable (vset (slots thrice) ((Hash 9 + d) mod capacity thrice)
                        (Slot_of 9 90))
                     (count thrice + 1) (Z.max (max_hash_offset thrice) d)) ∧
       free_at thrice ((Hash 9 + d) mod capacity thrice) ∧
       (∀ d', 0 ≤ d' < d → used_at thrice ((Hash 9 + d') mod capacity thrice)).
Proof.
  apply (set_takes_first_free_slot plain_ints_Equal_spec thrice 0 9 90).
  - exact thrice_reachable.
  - reflexivity.
  - reflexivity.
Defined.

Lemma lookup_window_witness :
  (∀ i, get_slot seven 3 = Ok (Some i) →
        0 ≤ i < capacity seven ∧
        (∃ v, vget (slots seven) i = Ok (Slot_of 3 v)) ∧
        (i - Hash 3) mod capacity seven ≤ max_hash_offset seven ∧
        max_hash_offset seven < capacity seven) ∧
  (get_slot seven 3 = Ok None →
   ∀ j s, slots seven !! j = Some s → used s = true → key (kv s) ≠ 3).
Proof.
  apply (lookup_window plain_ints_Equal_spec seven 3).
  exact seven_reachable.
Defined.

Lemma subscript_inserts_default_witness :
  (∀ v, get seven 8 = Ok (Some v) →
        ∃ i, subscript 16 seven 8 = Ok (i, seven) ∧
             vget (slots seven) i = Ok (Slot_of 8 v)) ∧
  (get seven 8 = Ok None →
   ∀ i t', subscript 16 seven 8 = Ok (i, t') →
           vget (slots t') i = Ok (Slot_of 8 default_value) ∧
           get t' 8 = Ok (Some default_value) ∧
           size t' = size seven + 1 ∧
           ∀ k', k' ≠ 8 → get t' k' = get seven k').
Proof.
  apply (subscript_inserts_default plain_ints_Equal_spec seven 16 8).
  exact seven_reachable.
Defined.

Lemma subscript_then_assign_witness :
  ∃ t2, store seven 3 99 = Ok t2 ∧
        get t2 3 = Ok (Some 99) ∧
        (∀ k', k' ≠ 3 → get t2 k' = get seven k') ∧
        size t2 = size seven.
Proof.
  apply (subscript_then_assign plain_ints_Equal_spec seven seven 16 3 3 99).
  - exact seven_reachable.
  - reflexivity.
Defined.

Lemma find_points_at_the_key_witness :
  ∃ it, find seven 3 = Ok it ∧
        (get seven 3 = Ok None → it = end_ seven) ∧
        (∀ v, get seven 3 = Ok (Some v) →
              0 ≤ it < end_ seven ∧ deref seven it = Ok (mkKeyValue 3 v)).
Proof.
  apply (find_points_at_the_key plain_ints_Equal_spec seven 3).
  exact seven_reachable.
Defined.

Lemma erase_what_find_found_witness :
  (∀ v, get seven 3 = Ok (Some v) →
        ∃ it t', find seven 3 = Ok it ∧
                 erase seven it = Ok t' ∧
                 remove seven 3 = Ok t' ∧
                 get t' 3 = Ok None ∧
                 size t' = size seven - 1 ∧
                 ∀ k', k' ≠ 3 → get t' k' = get seven k') ∧
  (get seven 3 = Ok None →
   ∃ it, find seven 3 = Ok it ∧ erase seven it = Abort).
Proof.
  apply (erase_what_find_found plain_ints_Equal_spec seven 3).
  exact seven_reachable.
Defined.

Lemma begin_is_first_used_slot_witness :
  ∃ it, begin_ seven = Ok it ∧
        0 ≤ it ≤ end_ seven ∧
        (∀ j, 0 ≤ j < it → free_at seven j) ∧
        (it < end_ seven → used_at seven it) ∧
        (it = end_ seven ↔ empty seven = true).
Proof.
  apply (begin_is_first_used_slot plain_ints_Equal_spec seven).
  exact seven_reachable.
Defined.

Lemma increment_is_next_used_slot_witness :
  ∃ it', incr seven 1 = Ok it' ∧
         1 < it' ≤ end_ seven ∧
         (∀ j, 1 < j < it' → free_at seven j) ∧
         (it' < end_ seven → used_at seven it').
Proof.
  apply (increment_is_next_used_slot plain_ints_Equal_spec seven 1).
  - exact seven_reachable.
  - split; [lia | reflexivity].
Defined.

Lemma iteration_in_slot_order_witness :
  items seven = Ok (List.map kv (List.filter used (slots seven))).
Proof.
  apply (iteration_in_slot_order plain_ints_Equal_spec seven).
  exact seven_reachable.
Defined.

Lemma empty_means_no_key_witness :
  (empty seven = true ↔ ∀ k, get seven k = Ok None) ∧
  (empty seven = true ↔ items seven = Ok []).
Proof.
  apply (empty_means_no_key plain_ints_Equal_spec seven).
  exact seven_reachable.
Defined.

Lemma presize_fits_the_hint_witness :
  (∃ e, 3 ≤ e ∧ capacity presized = 2 ^ e) ∧
  7 ≤ capacity presized * 3 / 4 ∧
  (8 < capacity presized → capacity presized / 2 * 3 / 4 < 7) ∧
  size presized = 0 ∧
  ∀ k, get presized k = Ok None.
Proof.
  apply (presize_fits_the_hint plain_ints_Equal_spec 100 7 presized).
  - split; [lia | reflexivity].
  - reflexivity.
Defined.

Lemma presized_table_does_not_grow_witness :
  ∃ t', set_each 0 presized (decades [1; 2; 3; 4; 5; 6; 7]) = Ok t' ∧
        capacity t' = capacity presized ∧
        size t' ≤ capacity t' * 3 / 4 ∧
        ∀ k, get t' k = Ok (last_set (calls_of (decades [1; 2; 3; 4; 5; 6; 7])) k).
Proof.
  apply (presized_table_does_not_grow plain_ints_Equal_spec 100 0 7 presized).
  - split; [lia | reflexivity].
  - reflexivity.
  - simpl. lia.
Defined.


Lemma rehash_keeps_the_entries_witness :
  size seven_rehashed = size seven ∧
  capacity seven < capacity seven_rehashed ∧
  should_rehash seven_rehashed = false ∧
  ∀ k, get seven_rehashed k = get seven k.
Proof.
  apply (rehash_keeps_the_entries plain_ints_Equal_spec 16 seven seven_rehashed).
  - exact seven_reachable.
  - reflexivity.
Defined.

Lemma six_reachable : reachable six.
Proof. by apply (reach_remove seven 3 six seven_reachable). Qed.

Lemma six_cleared : unused_cleared (slots six).
Proof.
  intros j s Hj Hu.
  repeat (destruct j as [| j];
          [injection Hj as <-; (reflexivity || discriminate Hu) |]).
  discriminate Hj.
Qed.

Lemma unused_slots_are_cleared_witness :
  unused_keys_cleared (slots six) ∧
  (∀ avail t', rehash avail six = Ok t' → unused_cleared (slots t')) ∧
  (∀ avail n (t' : @hash_table Z Z),
     hash_table_with_capacity avail n = Ok t' → unused_cleared (slots t')) ∧
  ((∀ avail k v t', table_after (set avail six k v) = Some t' →
                    unused_cleared (slots t')) ∧
   (∀ avail k t', table_after (subscript avail six k) = Some t' →
                  unused_cleared (slots t')) ∧
   (∀ k t', remove six k = Ok t' → unused_cleared (slots t')) ∧
   (∀ it t', erase six it = Ok t' → unused_cleared (slots t')) ∧
   (∀ i v t', used_at six i → store six i v = Ok t' →
              unused_cleared (slots t'))) ∧
  (∃ t', store six 3 99 = Ok t' ∧
         count t' = count six ∧
         (∀ k, get t' k = get six k) ∧
         free_at t' 3 ∧
         ¬ unused_cleared (slots t')).
Proof.
  destruct (unused_slots_are_cleared plain_ints_Equal_spec six six_reachable)
    as (Hk & Hr & Hc & Hp & Hs).
  split; [exact Hk |]. split; [exact Hr |]. split; [exact Hc |].
  split; [exact (Hp six_cleared) |].
  destruct (Hs 3 99) as (t' & H1 & H2 & H3 & H4 & H5).
  - lia.
  - eexists. split; reflexivity.
  - exists t'. split; [exact H1 |]. split; [exact H2 |]. split; [exact H3 |].
    split; [exact H4 |]. apply H5. discriminate.
Defined.

Lemma erase_at_a_free_slot_witness :
  erase six 3 = remove six default_key.
Proof.
  apply (erase_at_a_free_slot plain_ints_Equal_spec six 3).
  - exact six_reachable.
  - split; [lia | reflexivity].
  - eexists. split; reflexivity.
Defined.
